(** * weechat-matrix: the Olm encryption manager (matrix/encryption.py)

    A shallow embedding of [matrix/encryption.py]: the capability gate
    [encrypt_enabled], the key formatter [partition_key], and the [Olm]
    class with its sqlite-backed store.  The cryptographic provider
    (python-olm) is external to the repository and is taken as a
    parameter: a record of operations that may raise and may change the
    object they are called on. *)

From Stdlib Require Import Ascii String.
From stdpp Require Import base option list strings gmap fin_maps.

Local Open Scope string_scope.
Local Open Scope list_scope.
Local Open Scope nat_scope.

(** * Exceptions and results *)

(** The exception classes the module names, plus the built-in ones its
    statements can raise and the one [sqlite3.connect] raises.  python-olm
    declares its three error classes as unrelated subclasses of
    [Exception]; [EncryptionError] is the module's own class and wraps the
    error it was raised from. *)
Inductive exn : Type :=
  | OlmAccountError
  | OlmSessionError
  | OlmGroupSessionError
  | EncryptionError (cause : exn)
  | TypeError
  | NameError
  | OperationalError.

Definition exn_eqb_kind (e : exn) (k : exn) : bool :=
  match e, k with
  | OlmAccountError, OlmAccountError => true
  | OlmSessionError, OlmSessionError => true
  | OlmGroupSessionError, OlmGroupSessionError => true
  | EncryptionError _, EncryptionError _ => true
  | TypeError, TypeError => true
  | NameError, NameError => true
  | OperationalError, OperationalError => true
  | _, _ => false
  end.

(** [isinstance(e, (k1, ..., kn))] as an [except] clause evaluates it. *)
Definition caught_by (kinds : list exn) (e : exn) : bool :=
  existsb (exn_eqb_kind e) kinds.

Inductive result (A : Type) : Type :=
  | Ok (a : A)
  | Raise (e : exn).
Arguments Ok {A} a.
Arguments Raise {A} e.

(** * Statements: state passing with exceptions

    A Python statement sequence is a function from the state before to the
    state after and either a value or a raised exception.  Changes made
    before an exception is raised stay made. *)
Definition M (S A : Type) : Type := S → S * result A.

Definition ret {S A} (a : A) : M S A := λ s, (s, Ok a).

Definition raise {S A} (e : exn) : M S A := λ s, (s, Raise e).

Definition bind {S A B} (m : M S A) (k : A → M S B) : M S B :=
  λ s, match m s with
       | (s', Ok a) => k a s'
       | (s', Raise e) => (s', Raise e)
       end.

#[global] Instance M_ret {S} : MRet (M S) := λ A, @ret S A.
#[global] Instance M_bind {S} : MBind (M S) := λ A B k m, @bind S A B m k.

Definition get {S} : M S S := λ s, (s, Ok s).

Definition modify {S} (f : S → S) : M S unit := λ s, (f s, Ok tt).

(** The outcome of a provider call as a statement. *)
Definition lift_result {S A} (r : result A) : M S A := λ s, (s, r).

(** [try: body except kinds as e: handler(e)] *)
Definition try_except {S A} (body : M S A) (kinds : list exn)
    (handler : exn → M S A) : M S A :=
  λ s, match body s with
       | (s', Ok a) => (s', Ok a)
       | (s', Raise e) => if caught_by kinds e then handler e s'
                          else (s', Raise e)
       end.

(** [for x in xs: body(x)] *)
Fixpoint for_each {S A} (xs : list A) (body : A → M S unit) : M S unit :=
  match xs with
  | [] => mret tt
  | x :: rest => body x;; for_each rest body
  end.

(** A [for] loop that builds up a local value. *)
Fixpoint fold_each {S A B} (xs : list A) (acc : B) (body : B → A → M S B)
    : M S B :=
  match xs with
  | [] => mret acc
  | x :: rest => acc' ← body acc x; fold_each rest acc' body
  end.

(** * Key formatting: [grouper] and [partition_key] *)

Section Grouper.
Context {A : Type}.

(** One round of [zip_longest] over [n] references to one iterator,
    which is what [args = [iter(iterable)] * n] builds: the [n]
    positions of the tuple pull from the shared iterator in turn; a
    position that finds it exhausted takes [fill].  Returns the tuple and
    what is left of the iterator. *)
Fixpoint zip_round (n : nat) (fill : A) (it : list A) : list A * list A :=
  match n with
  | 0 => ([], it)
  | S n' =>
      match it with
      | [] => let '(g, r) := zip_round n' fill [] in (fill :: g, r)
      | x :: it' => let '(g, r) := zip_round n' fill it' in (x :: g, r)
      end
  end.

(** [zip_longest] stops at the first round in which every position finds
    the iterator exhausted, that is, a round that starts on an exhausted
    iterator.  [fuel] bounds the number of rounds. *)
Fixpoint zip_rounds (fuel n : nat) (fill : A) (it : list A) : list (list A) :=
  match fuel with
  | 0 => []
  | S fuel' =>
      match it with
      | [] => []
      | _ :: _ =>
          let '(g, r) := zip_round n fill it in
          g :: zip_rounds fuel' n fill r
      end
  end.

(** [grouper(iterable, n, fillvalue)].  With [n = 0] the call is
    [zip_longest()], which yields nothing; otherwise every round takes at
    least one element, so [length it] rounds are enough. *)
Definition grouper (it : list A) (n : nat) (fill : A) : list (list A) :=
  match n with
  | 0 => []
  | S _ => zip_rounds (length it) n fill it
  end.
End Grouper.

(** The groups of [grouper(key, 4, " ")], each joined into a string, then
    joined with a single space. *)
Definition partition_key (key : string) : string :=
  let groups := grouper (list_ascii_of_string key) 4 " "%char in
  String.concat " " (map string_of_list_ascii groups).

(** [pad] spaces, the padding of a last group. *)
Definition spaces (pad : nat) : string :=
  string_of_list_ascii (replicate pad " "%char).

(** * The cryptographic provider (python-olm)

    The module imports [Account], [Session], [InboundSession],
    [OlmPreKeyMessage] and [InboundGroupSession] from python-olm.  None of
    it is in the repository, so the provider is a parameter of the model.
    A call returns a value or raises; a method that changes the object it
    is called on ([decrypt], [remove_one_time_keys],
    [mark_keys_as_published]) returns the object's new state as well, also
    when it raises.  Identifiers, keys and plaintexts are strings. *)

(** The two message classes of python-olm; [isinstance(message,
    OlmPreKeyMessage)] is [is_prekey]. *)
Inductive Message : Type :=
  | OlmPreKeyMessage (ciphertext : string)
  | OlmMessage (ciphertext : string).

Definition is_prekey (message : Message) : bool :=
  match message with
  | OlmPreKeyMessage _ => true
  | OlmMessage _ => false
  end.

(** What [pickle()] hands to the store, as the store gives it back.  The
    module binds the value to a statement parameter as it is and stores
    nothing else in a [pickle] cell.  sqlite3 gives a text back as a
    [str], which is also what it makes of a Python 2 byte string, and a
    Python 3 [bytes] back as a [bytes].  Which of the two a [pickle()]
    amounts to is the provider's affair; [from_pickle] takes [bytes]. *)
Inductive Pickle : Type :=
  | Str (text : string)
  | Bytes (data : string).

(** [bytes(pickle, "utf-8")], where [bytes] is the Python 3 type (the
    module takes it from [builtins]): the encoding of a [str]; on a
    [bytes] the call raises [TypeError], an encoding being given without
    a string to encode.  A [str] is modelled by its UTF-8 encoding. *)
Definition bytes_utf8 (pickle : Pickle) : result string :=
  match pickle with
  | Str text => Ok text
  | Bytes _ => Raise TypeError
  end.

Record Provider : Type := {
  Account : Type;
  Session : Type;
  InboundGroupSession : Type;
  (* Account() *)
  Account_new : Account;
  (* pickle() and from_pickle(bytes), for each of the three classes *)
  Account_pickle : Account → result Pickle;
  Account_from_pickle : string → result Account;
  Account_remove_one_time_keys : Account → Session → Account * result unit;
  Account_mark_keys_as_published : Account → Account * result unit;
  Account_sign : Account → string → result string;
  (* InboundSession(account, message, sender_key) *)
  InboundSession : Account → Message → string → result Session;
  Session_matches : Session → Message → result bool;
  Session_decrypt : Session → Message → Session * result string;
  Session_id : Session → string;
  Session_pickle : Session → result Pickle;
  Session_from_pickle : string → result Session;
  (* InboundGroupSession(session_key) *)
  InboundGroupSession_new : string → result InboundGroupSession;
  InboundGroupSession_decrypt :
    InboundGroupSession → string → InboundGroupSession * result string;
  InboundGroupSession_id : InboundGroupSession → string;
  InboundGroupSession_pickle : InboundGroupSession → result Pickle;
  InboundGroupSession_from_pickle : string → result InboundGroupSession;
}.

(** * The store: one sqlite file per (user, device)

    A table is the list of its rows in insertion order, which is the order
    a [select] without [order by] returns them in.  The three tables are
    created together by [_check_db_tables]; a file it has not yet been run
    on is a path with no entry in [files].  A write is modelled as
    taking effect at once: in the source every statement that writes is
    followed by [commit()] before anything else runs, except inside the
    loops of [_update_sessions_in_db] and [_update_inbound_group_sessions],
    which commit once after the loop.  A database is therefore shown as
    the connection of its manager sees it.  That is the committed
    content, except after a [pickle()] has raised inside one of the two
    loops: the updates made before it are in the connection's open
    transaction, and are committed with its next [commit()]. *)
Record Database : Type := {
  tbl_olmaccount : list (string * Pickle);
  tbl_olmsessions : list (string * string * Pickle);
  tbl_inbound_group_sessions : list (string * string * Pickle);
}.

Definition empty_db : Database :=
  {| tbl_olmaccount := []; tbl_olmsessions := [];
     tbl_inbound_group_sessions := [] |}.

(** * Process-wide state

    [ENCRYPTION] is [matrix.globals.ENCRYPTION]; [printed] collects the
    [W.prnt(buffer, message)] calls, oldest first; [files] maps a path to
    the sqlite database stored there; [has_directory path] tells whether
    the directory [path] lies in is there and can be written to, so that
    a file can be created at [path].  No statement of the module creates
    a directory. *)
Record World : Type := {
  ENCRYPTION : bool;
  printed : list (string * string);
  files : gmap string Database;
  has_directory : string → bool;
}.

Definition set_printed (f : list (string * string) → list (string * string))
    (w : World) : World :=
  {| ENCRYPTION := ENCRYPTION w; printed := f (printed w); files := files w;
     has_directory := has_directory w |}.

Definition set_files (f : gmap string Database → gmap string Database)
    (w : World) : World :=
  {| ENCRYPTION := ENCRYPTION w; printed := printed w; files := f (files w);
     has_directory := has_directory w |}.

Definition W_prnt (buffer message : string) : M World unit :=
  modify (set_printed (λ out, out ++ [(buffer, message)])).

(** [os.path.join(a, b)] on a POSIX host. *)
Fixpoint ends_with_slash (a : string) : bool :=
  match a with
  | EmptyString => false
  | String c EmptyString => Ascii.eqb c "/"
  | String _ rest => ends_with_slash rest
  end.

Definition os_path_join (a b : string) : string :=
  match b with
  | String "/" _ => b
  | _ => match a with
         | EmptyString => b
         | _ => if ends_with_slash a then a +:+ b else a +:+ "/" +:+ b
         end
  end.

(** [os.path.join(session_path, "{}_{}.db".format(user, device_id))] *)
Definition db_path (user device_id session_path : string) : string :=
  os_path_join session_path (user +:+ "_" +:+ device_id +:+ ".db").

(** [sqlite3.connect(path)] opens the database stored at [path]; where
    there is none it creates the file, and raises [OperationalError] when
    it cannot, the directory not being there.  A connection is named by
    the path it was opened on; the new file has no table and gets its
    entry in [files] from [_check_db_tables], which both callers run
    next. *)
Definition sqlite3_connect (path : string) : M World string :=
  w ← get;
  match files w !! path with
  | Some _ => mret path
  | None =>
      if has_directory w path then mret path else raise OperationalError
  end.

Definition db_of (w : World) (conn : string) : Database :=
  default empty_db (files w !! conn).

(** [cursor.execute] of a statement that writes, then [commit()]. *)
Definition execute (conn : string) (stmt : Database → Database) : M World unit :=
  modify (λ w, set_files (<[conn := stmt (db_of w conn)]>) w).

(** [Olm._check_db_tables]: each table is created if it is not there. *)
Definition _check_db_tables (conn : string) : M World unit :=
  w ← get;
  match files w !! conn with
  | Some _ => mret tt
  | None => execute conn (λ _, empty_db)
  end.

(** The statements the class issues. *)
Definition sql_insert_olmaccount (user : string) (pickle : Pickle)
    (db : Database) :=
  {| tbl_olmaccount := tbl_olmaccount db ++ [(user, pickle)];
     tbl_olmsessions := tbl_olmsessions db;
     tbl_inbound_group_sessions := tbl_inbound_group_sessions db |}.

Definition sql_update_olmaccount (pickle : Pickle) (user : string)
    (db : Database) :=
  {| tbl_olmaccount :=
       map (λ row, if decide (row.1 = user) then (row.1, pickle) else row)
           (tbl_olmaccount db);
     tbl_olmsessions := tbl_olmsessions db;
     tbl_inbound_group_sessions := tbl_inbound_group_sessions db |}.

Definition sql_insert_olmsessions (user session_id : string) (pickle : Pickle)
    (db : Database) :=
  {| tbl_olmaccount := tbl_olmaccount db;
     tbl_olmsessions := tbl_olmsessions db ++ [(user, session_id, pickle)];
     tbl_inbound_group_sessions := tbl_inbound_group_sessions db |}.

Definition sql_update_olmsessions (pickle : Pickle) (user session_id : string)
    (db : Database) :=
  {| tbl_olmaccount := tbl_olmaccount db;
     tbl_olmsessions :=
       map (λ row, if decide (row.1.1 = user ∧ row.1.2 = session_id)
                   then (row.1.1, row.1.2, pickle) else row)
           (tbl_olmsessions db);
     tbl_inbound_group_sessions := tbl_inbound_group_sessions db |}.

Definition sql_insert_inbound_group_sessions (room_id session_id : string)
    (pickle : Pickle) (db : Database) :=
  {| tbl_olmaccount := tbl_olmaccount db;
     tbl_olmsessions := tbl_olmsessions db;
     tbl_inbound_group_sessions :=
       tbl_inbound_group_sessions db ++ [(room_id, session_id, pickle)] |}.

(** * The capability gate: [encrypt_enabled] *)

Class Gated (S : Type) : Type := gate : S → bool.

#[global] Instance World_gated : Gated World := ENCRYPTION.

(** The wrapper calls [f] when [matrix.globals.ENCRYPTION] is true and
    returns [None] without calling it otherwise. *)
Definition encrypt_enabled {S A} `{Gated S} (f : M S (option A)) : M S (option A) :=
  λ s, if gate s then f s else (s, Ok None).

(** * The [Olm] class *)

Record OlmDeviceKey : Type := {
  key_user_id : string;
  key_device_id : string;
  keys : gmap string string;
}.

Section Olm.
Context (P : Provider).
(** [json.dumps(json_dict, ensure_ascii=False, separators=(',', ':'),
    sort_keys=True)] of the standard library. *)
Context {Json : Type} (json_dumps : Json → string).

(** The attributes [__init__] sets.  Both registries are
    [collections.defaultdict]s on every path that builds one: a lookup
    of a key that is not there stores the default under it. *)
Record Olm : Type := {
  user : string;
  device_id : string;
  session_path : string;
  database : string;
  device_keys : gmap string (list OlmDeviceKey);
  account : Account P;
  sessions : gmap string (list (Session P));
  inbound_group_sessions : gmap string (gmap string (InboundGroupSession P));
}.

Definition set_account (a : Account P) (o : Olm) : Olm :=
  {| user := user o; device_id := device_id o;
     session_path := session_path o; database := database o;
     device_keys := device_keys o; account := a;
     sessions := sessions o;
     inbound_group_sessions := inbound_group_sessions o |}.

Definition set_sessions (m : gmap string (list (Session P))) (o : Olm) : Olm :=
  {| user := user o; device_id := device_id o;
     session_path := session_path o; database := database o;
     device_keys := device_keys o; account := account o;
     sessions := m;
     inbound_group_sessions := inbound_group_sessions o |}.

Definition set_inbound_group_sessions
    (m : gmap string (gmap string (InboundGroupSession P))) (o : Olm) : Olm :=
  {| user := user o; device_id := device_id o;
     session_path := session_path o; database := database o;
     device_keys := device_keys o; account := account o;
     sessions := sessions o;
     inbound_group_sessions := m |}.

(** A method runs on the process state and its [self]. *)
Record St : Type := { world : World; self : Olm }.

#[global] Instance St_gated : Gated St := λ st, ENCRYPTION (world st).

Definition in_world {A} (m : M World A) : M St A :=
  λ st, let '(w, r) := m (world st) in ({| world := w; self := self st |}, r).

Definition modify_self (f : Olm → Olm) : M St unit :=
  modify (λ st, {| world := world st; self := f (self st) |}).

(** [self.sessions[sender]] *)
Definition sessions_getitem (sender : string) : M St (list (Session P)) :=
  st ← get;
  match sessions (self st) !! sender with
  | Some l => mret l
  | None => modify_self (λ o, set_sessions (<[sender := []]> (sessions o)) o);;
            mret []
  end.

(** [self.inbound_group_sessions[room_id]] *)
Definition inbound_group_sessions_getitem (room_id : string)
    : M St (gmap string (InboundGroupSession P)) :=
  st ← get;
  match inbound_group_sessions (self st) !! room_id with
  | Some d => mret d
  | None =>
      modify_self (λ o, set_inbound_group_sessions
                          (<[room_id := ∅]> (inbound_group_sessions o)) o);;
      mret ∅
  end.

(** ** Store helpers *)

Definition _insert_acc_to_db : M St unit :=
  st ← get;
  pickle ← lift_result (Account_pickle P (account (self st)));
  in_world (execute (database (self st))
              (sql_insert_olmaccount (user (self st)) pickle)).

Definition _update_acc_in_db : M St unit :=
  st ← get;
  pickle ← lift_result (Account_pickle P (account (self st)));
  in_world (execute (database (self st))
              (sql_update_olmaccount pickle (user (self st)))).

Definition _store_session (user : string) (session : Session P) : M St unit :=
  st ← get;
  pickle ← lift_result (Session_pickle P session);
  in_world (execute (database (self st))
              (sql_insert_olmsessions user (Session_id P session) pickle)).

Definition _store_inbound_group_session (room_id : string)
    (session : InboundGroupSession P) : M St unit :=
  st ← get;
  pickle ← lift_result (InboundGroupSession_pickle P session);
  in_world (execute (database (self st))
              (sql_insert_inbound_group_sessions
                 room_id (InboundGroupSession_id P session) pickle)).

(** The loop over [self.sessions.items()].  An [update] reaches only the
    rows of the sender whose session it writes, so the order the senders
    come in does not show in the rows.  The one [commit()] comes after the
    loop; the rows are those the manager's connection sees. *)
Definition _update_sessions_in_db : M St unit :=
  st ← get;
  for_each (map_to_list (sessions (self st))) (λ '(user, session_list),
    for_each session_list (λ session,
      pickle ← lift_result (Session_pickle P session);
      in_world (execute (database (self st))
                  (sql_update_olmsessions pickle user (Session_id P session))))).

(** No method calls this one.  It reads [session.id()], where the other
    two uses of a group session's identifier read the attribute
    [session.id]: calling the string raises [TypeError] once the pickle
    has been taken. *)
Definition _update_inbound_group_sessions : M St unit :=
  st ← get;
  for_each (map_to_list (inbound_group_sessions (self st)))
    (λ '(room_id, session_dict),
      for_each (map_to_list session_dict) (λ '(_, session),
        pickle ← lift_result (InboundGroupSession_pickle P session);
        (raise TypeError : M St unit))).

(** ** Construction *)

(** [Olm.__init__].  The result is [None] when the gate is off: the
    object is then left without any attribute. *)
Definition Olm_init (user device_id session_path : string)
    (database : option string) (account : option (Account P))
    (sessions : option (gmap string (list (Session P))))
    (inbound_group_sessions :
       option (gmap string (gmap string (InboundGroupSession P))))
    : M World (option Olm) :=
  encrypt_enabled (
    database ←
      match database with
      | Some conn => mret conn
      | None =>
          conn ← sqlite3_connect (db_path user device_id session_path);
          _check_db_tables conn;;
          mret conn
      end;
    account ←
      match account with
      | Some a => mret a
      | None =>
          (* self.account = Account(); self._insert_acc_to_db() *)
          let a := Account_new P in
          pickle ← lift_result (Account_pickle P a);
          execute database (sql_insert_olmaccount user pickle);;
          mret a
      end;
    mret (Some
      {| user := user; device_id := device_id;
         session_path := session_path; database := database;
         device_keys := ∅; account := account;
         sessions := default ∅ sessions;
         inbound_group_sessions := default ∅ inbound_group_sessions |})).

(** ** Sessions *)

(** [self.sessions[sender].append(session)]; returns the position the
    session now has in the sender's list. *)
Definition sessions_append (sender : string) (session : Session P) : M St nat :=
  l ← sessions_getitem sender;
  modify_self (λ o, set_sessions (<[sender := l ++ [session]]> (sessions o)) o);;
  mret (length l).

(** [session.decrypt(message)] where [session] is the object at position
    [i] of [self.sessions[sender]]: the list holds the object itself, so
    its new state is the registry's. *)
Definition Session_decrypt_in_place (sender : string) (i : nat)
    (session : Session P) (message : Message) : M St string :=
  let '(session', r) := Session_decrypt P session message in
  modify_self (λ o, set_sessions
                      (alter (λ l, <[i := session']> l) sender (sessions o)) o);;
  lift_result r.

Definition _create_session (sender sender_key : string) (message : Message)
    : M St (nat * Session P) :=
  in_world (W_prnt "" ("matrix: Creating session for " +:+ sender));;
  st ← get;
  session ← lift_result (InboundSession P (account (self st)) message sender_key);
  in_world (W_prnt "" ("matrix: Created session for " +:+ sender));;
  i ← sessions_append sender session;
  _store_session sender session;;
  st ← get;
  (let '(account', r) :=
     Account_remove_one_time_keys P (account (self st)) session in
   modify_self (set_account account');;
   lift_result r);;
  _update_acc_in_db;;
  mret (i, session).

Definition create_group_session (room_id session_id session_key : string)
    : M St unit :=
  in_world (W_prnt "" ("matrix: Creating group session for " +:+ room_id));;
  session ← lift_result (InboundGroupSession_new P session_key);
  d ← inbound_group_sessions_getitem room_id;
  modify_self (λ o, set_inbound_group_sessions
                      (<[room_id := <[session_id := session]> d]>
                         (inbound_group_sessions o)) o);;
  _store_inbound_group_session room_id session.

(** The [try] statement in the loop of [decrypt], run on the session at
    position [i].  [Some p] is its [return plaintext]; [None] is going
    on to the next session, by [continue] or from the [except] clause. *)
Definition decrypt_attempt (sender : string) (message : Message) (i : nat)
    (session : Session P) : M St (option string) :=
  try_except
    (skip ← (if is_prekey message
             then matches ← lift_result (Session_matches P session message);
                  mret (negb matches)
             else mret false);
     if (skip : bool) then mret None
     else plaintext ← Session_decrypt_in_place sender i session message;
          mret (Some plaintext))
    [OlmSessionError] (λ _, mret None).

(** The [for session in self.sessions[sender]] loop of [decrypt], from
    position [i] on; [todo] are the sessions not yet visited.  [None] is
    falling out of the loop. *)
Fixpoint decrypt_loop (sender : string) (message : Message) (i : nat)
    (todo : list (Session P)) : M St (option string) :=
  match todo with
  | [] => mret None
  | session :: rest =>
      returned ← decrypt_attempt sender message i session;
      match returned with
      | Some plaintext => mret (Some plaintext)
      | None => decrypt_loop sender message (S i) rest
      end
  end.

Definition decrypt (sender sender_key : string) (message : Message)
    : M St (option string) :=
  encrypt_enabled (
    l ← sessions_getitem sender;
    returned ← decrypt_loop sender message 0 l;
    match returned with
    | Some plaintext => mret (Some plaintext)
    | None =>
        created ←
          try_except
            (c ← _create_session sender sender_key message; mret (Some c))
            [OlmSessionError] (λ _, mret None);
        match created with
        | None => mret None
        | Some (i, session) =>
            try_except
              (plaintext ← Session_decrypt_in_place sender i session message;
               mret (Some plaintext))
              [OlmSessionError] (λ _, mret None)
        end
    end).

(** [session.decrypt(ciphertext)] on the object stored under
    [self.inbound_group_sessions[room_id][session_id]]. *)
Definition InboundGroupSession_decrypt_in_place (room_id session_id : string)
    (session : InboundGroupSession P) (ciphertext : string) : M St string :=
  let '(session', r) := InboundGroupSession_decrypt P session ciphertext in
  modify_self (λ o, set_inbound_group_sessions
                      (alter (λ d, <[session_id := session']> d) room_id
                         (inbound_group_sessions o)) o);;
  lift_result r.

Definition group_decrypt (room_id session_id ciphertext : string)
    : M St (option string) :=
  encrypt_enabled (
    d ← inbound_group_sessions_getitem room_id;
    match d !! session_id with
    | None => mret None
    | Some session =>
        try_except
          (plaintext ← InboundGroupSession_decrypt_in_place
                         room_id session_id session ciphertext;
           mret (Some plaintext))
          [OlmGroupSessionError] (λ _, mret None)
    end).

(** ** Loading and saving *)

(** The bodies of the two loops of [from_session_dir], over the rows of
    [db_sessions] and of [db_inbound_group_sessions]. *)
Definition load_session (sessions : gmap string (list (Session P)))
    (db_session : string * Pickle)
    : M World (gmap string (list (Session P))) :=
  data ← lift_result (bytes_utf8 db_session.2);
  session ← lift_result (Session_from_pickle P data);
  mret (<[db_session.1 :=
            default [] (sessions !! db_session.1) ++ [session]]> sessions).

Definition load_inbound_group_session
    (groups : gmap string (gmap string (InboundGroupSession P)))
    (db_session : string * Pickle)
    : M World (gmap string (gmap string (InboundGroupSession P))) :=
  data ← lift_result (bytes_utf8 db_session.2);
  session ← lift_result (InboundGroupSession_from_pickle P data);
  mret (<[db_session.1 :=
            <[InboundGroupSession_id P session := session]>
              (default ∅ (groups !! db_session.1))]> groups).

(** [Olm.from_session_dir].  [cursor.fetchone()] is [None] when no row
    matches, and [row[0]] then raises [TypeError].  Each pickle goes
    through [bytes(pickle, "utf-8")] on its way to [from_pickle]; the
    [TypeError] of that call is not among the errors the [except] clause
    names. *)
Definition from_session_dir (user device_id session_path : string)
    : M World (option Olm) :=
  encrypt_enabled (
    database ← sqlite3_connect (db_path user device_id session_path);
    _check_db_tables database;;
    w ← get;
    let db := db_of w database in
    account_pickle ←
      match filter (λ row, row.1 = user) (tbl_olmaccount db) with
      | [] => raise TypeError
      | row :: _ => mret row.2
      end;
    let db_sessions := map (λ row, (row.1.1, row.2)) (tbl_olmsessions db) in
    let db_inbound_group_sessions :=
      map (λ row, (row.1.1, row.2)) (tbl_inbound_group_sessions db) in
    try_except
      (data ← lift_result (bytes_utf8 account_pickle);
       account ← lift_result (Account_from_pickle P data);
       sessions ← fold_each db_sessions ∅ load_session;
       inbound_group_sessions ←
         fold_each db_inbound_group_sessions ∅ load_inbound_group_session;
       Olm_init user device_id session_path (Some database) (Some account)
         (Some sessions) (Some inbound_group_sessions))
      [OlmAccountError; OlmSessionError]
      (λ error, raise (EncryptionError error))).

Definition to_session_dir : M St (option unit) :=
  encrypt_enabled (
    try_except
      (_update_acc_in_db;;
       _update_sessions_in_db;;
       mret None)
      [OlmAccountError]
      (λ error, raise (EncryptionError error))).

(** ** Signing and key publication *)

Definition sign_json (json_dict : Json) : M St string :=
  st ← get;
  lift_result (Account_sign P (account (self st)) (json_dumps json_dict)).

Definition mark_keys_as_published : M St (option unit) :=
  encrypt_enabled (
    st ← get;
    (let '(account', r) :=
       Account_mark_keys_as_published P (account (self st)) in
     modify_self (set_account account');;
     lift_result r);;
    mret None).
End Olm.

Arguments user {P}.
Arguments device_id {P}.
Arguments session_path {P}.
Arguments database {P}.
Arguments device_keys {P}.
Arguments account {P}.
Arguments sessions {P}.
Arguments inbound_group_sessions {P}.
Arguments world {P}.
Arguments self {P}.

(** * A small provider to run the model on

    Objects are strings and are their own pickles, which the store gives
    back as [str].  A session is its key followed by one [+] for every
    message it has decrypted; its identifier is the key.  A ciphertext is
    [key|plaintext]; a session decrypts the ciphertexts that carry its
    key.  Only a pre-key message can start an inbound session, as in
    libolm.  The empty string is the one pickle that is rejected. *)
Module Toy.
Fixpoint before (c : ascii) (s : string) : string :=
  match s with
  | EmptyString => EmptyString
  | String x rest => if Ascii.eqb x c then EmptyString
                     else String x (before c rest)
  end.

Fixpoint after (c : ascii) (s : string) : option string :=
  match s with
  | EmptyString => None
  | String x rest => if Ascii.eqb x c then Some rest else after c rest
  end.

Definition ciphertext_of (message : Message) : string :=
  match message with
  | OlmPreKeyMessage c => c
  | OlmMessage c => c
  end.

Definition ident (object : string) : string := before "+" object.

Definition unpickle (e : exn) (pickle : string) : result string :=
  if decide (pickle = "") then Raise e else Ok pickle.

Definition open_with (e : exn) (object ciphertext : string)
    : string * result string :=
  match after "|" ciphertext with
  | Some plaintext =>
      if decide (before "|" ciphertext = ident object)
      then (object +:+ "+", Ok plaintext)
      else (object, Raise e)
  | None => (object, Raise e)
  end.

Definition inbound (message : Message) : result string :=
  match message with
  | OlmPreKeyMessage c =>
      match after "|" c with
      | Some _ => Ok (before "|" c)
      | None => Raise OlmSessionError
      end
  | OlmMessage _ => Raise OlmSessionError
  end.

Definition provider : Provider :=
  {| Account := string;
     Session := string;
     InboundGroupSession := string;
     Account_new := "account";
     Account_pickle := λ a, Ok (Str a);
     Account_from_pickle := unpickle OlmAccountError;
     Account_remove_one_time_keys := λ a _, (a +:+ "-", Ok tt);
     Account_mark_keys_as_published := λ a, (a +:+ "!", Ok tt);
     Account_sign := λ a text, Ok (a +:+ ":" +:+ text);
     InboundSession := λ _ message _, inbound message;
     Session_matches := λ s message,
       Ok (bool_decide (before "|" (ciphertext_of message) = ident s));
     Session_decrypt := λ s message,
       open_with OlmSessionError s (ciphertext_of message);
     Session_id := ident;
     Session_pickle := λ s, Ok (Str s);
     Session_from_pickle := unpickle OlmSessionError;
     InboundGroupSession_new := unpickle OlmGroupSessionError;
     InboundGroupSession_decrypt := open_with OlmGroupSessionError;
     InboundGroupSession_id := ident;
     InboundGroupSession_pickle := λ s, Ok (Str s);
     InboundGroupSession_from_pickle := unpickle OlmGroupSessionError |}.

(** The provider's names in a process where [from olm... import] failed:
    the [except ImportError] clause at the head of the module has turned
    the gate off, and a statement that evaluates one of the imported class
    names raises [NameError]. *)
Definition unimported : Provider :=
  {| Account := string;
     Session := string;
     InboundGroupSession := string;
     Account_new := "";
     Account_pickle := λ a, Ok (Str a);
     Account_from_pickle := λ _, Raise NameError;
     Account_remove_one_time_keys := λ a _, (a, Ok tt);
     Account_mark_keys_as_published := λ a, (a, Ok tt);
     Account_sign := λ a text, Ok (a +:+ ":" +:+ text);
     InboundSession := λ _ _ _, Raise NameError;
     Session_matches := λ _ _, Ok false;
     Session_decrypt := λ s _, (s, Raise OlmSessionError);
     Session_id := ident;
     Session_pickle := λ s, Ok (Str s);
     Session_from_pickle := λ _, Raise NameError;
     InboundGroupSession_new := λ _, Raise NameError;
     InboundGroupSession_decrypt := λ s _, (s, Raise OlmGroupSessionError);
     InboundGroupSession_id := ident;
     InboundGroupSession_pickle := λ s, Ok (Str s);
     InboundGroupSession_from_pickle := λ _, Raise NameError |}.

(** [json.dumps] on payloads that are already text. *)
Definition dumps (payload : string) : string := payload.

(** A manager for [@me] on device [DEV], its database open on
    [/tmp/@me_DEV.db]. *)
Definition manager (sessions : gmap string (list string))
    (groups : gmap string (gmap string string)) : Olm provider :=
  Build_Olm provider "@me" "DEV" "/tmp" "/tmp/@me_DEV.db" ∅
    "account" sessions groups.

Definition state (enabled : bool) (db : Database)
    (sessions : gmap string (list string))
    (groups : gmap string (gmap string string)) : St provider :=
  Build_St provider
    {| ENCRYPTION := enabled; printed := [];
       files := {[ "/tmp/@me_DEV.db" := db ]};
       has_directory := λ _, true |}
    (manager sessions groups).

(** The store of a manager that has its account and nothing else. *)
Definition db_account : Database :=
  {| tbl_olmaccount := [("@me", Str "account")];
     tbl_olmsessions := [];
     tbl_inbound_group_sessions := [] |}.

Definition fresh : St provider := state true db_account ∅ ∅.

(** The same manager in a process whose gate is off. *)
Definition gate_off : St provider := state false db_account ∅ ∅.

(** A manager in the process without python-olm.  Its [__init__]
    returned at the gate and set no attribute; the fields stand for
    attributes that no statement reads before a provider name is
    evaluated. *)
Definition bare : St unimported :=
  Build_St unimported
    {| ENCRYPTION := false; printed := []; files := ∅;
       has_directory := λ _, true |}
    (Build_Olm unimported "@me" "DEV" "/tmp" "/tmp/@me_DEV.db" ∅ "" ∅ ∅).

(** [@alice] has two sessions, [A] created before [B], each with its
    row. *)
Definition db_alice : Database :=
  {| tbl_olmaccount := [("@me", Str "account")];
     tbl_olmsessions :=
       [("@alice", "A", Str "A"); ("@alice", "B", Str "B")];
     tbl_inbound_group_sessions := [] |}.

Definition alice : St provider :=
  state true db_alice {[ "@alice" := ["A"; "B"] ]} ∅.

(** A store whose one group-session row has a pickle the provider
    rejects, and one whose pairwise-session row has. *)
Definition db_bad_group : Database :=
  {| tbl_olmaccount := [("@me", Str "account")];
     tbl_olmsessions := [("@alice", "A", Str "A")];
     tbl_inbound_group_sessions := [("!room", "G", Str "")] |}.

Definition db_bad_session : Database :=
  {| tbl_olmaccount := [("@me", Str "account")];
     tbl_olmsessions := [("@alice", "A", Str "")];
     tbl_inbound_group_sessions := [] |}.

Definition on_disk (db : Database) : World :=
  {| ENCRYPTION := true; printed := [];
     files := {[ "/tmp/@me_DEV.db" := db ]};
     has_directory := λ _, true |}.
End Toy.

(** * Vocabulary of the statements *)

(** The two notices of [_create_session]. *)
Definition creating (sender : string) : string * string :=
  ("", "matrix: Creating session for " +:+ sender).
Definition created (sender : string) : string * string :=
  ("", "matrix: Created session for " +:+ sender).

(** What the last [try] of [decrypt] makes of the new session's answer. *)
Definition after_retry (r : result string) : result (option string) :=
  match r with
  | Ok plaintext => Ok (Some plaintext)
  | Raise e => if caught_by [OlmSessionError] e then Ok None else Raise e
  end.

Section Vocabulary.
Context (P : Provider).

(** How one pass of the loop of [decrypt] can leave a session behind
    without returning: the session does not match a pre-key message (or
    [matches] itself raises the session error) and is not asked to
    decrypt, or it is asked and raises the session error.  The second
    argument is the session afterwards. *)
Inductive declines (message : Message) : Session P → Session P → Prop :=
  | declines_no_match session :
      is_prekey message = true →
      Session_matches P session message = Ok false →
      declines message session session
  | declines_matches_raises session :
      is_prekey message = true →
      Session_matches P session message = Raise OlmSessionError →
      declines message session session
  | declines_decrypt_raises session session' :
      (is_prekey message = true →
       Session_matches P session message = Ok true) →
      Session_decrypt P session message = (session', Raise OlmSessionError) →
      declines message session session'.

(** The session is asked to decrypt and yields [plaintext]. *)
Definition decrypts (message : Message) (session session' : Session P)
    (plaintext : string) : Prop :=
  (is_prekey message = true → Session_matches P session message = Ok true)
  ∧ Session_decrypt P session message = (session', Ok plaintext).

(** The database the manager's connection is open on. *)
Definition store (st : St P) : Database :=
  db_of (world st) (database (self st)).

(** The state with one registry replaced and nothing else changed. *)
Definition with_groups (st : St P)
    (groups : gmap string (gmap string (InboundGroupSession P))) : St P :=
  {| world := world st;
     self := set_inbound_group_sessions P groups (self st) |}.

Definition with_sessions (st : St P)
    (registry : gmap string (list (Session P))) : St P :=
  {| world := world st; self := set_sessions P registry (self st) |}.

(** The group-session table of every file is the one it is in [w]. *)
Definition same_group_rows (w : World) (st : St P) : Prop :=
  ∀ conn, tbl_inbound_group_sessions (db_of (world st) conn)
          = tbl_inbound_group_sessions (db_of w conn).

(** Every session the registry holds for [sender] has a row in the
    store that carries the pickle of its present state. *)
Definition store_reflects (st : St P) (sender : string) : Prop :=
  ∀ session, session ∈ default [] (sessions (self st) !! sender) →
    ∃ pickle, Session_pickle P session = Ok pickle
      ∧ (sender, Session_id P session, pickle) ∈ tbl_olmsessions (store st).

End Vocabulary.

Arguments declines {P}.
Arguments decrypts {P}.
Arguments store {P}.
Arguments store_reflects {P}.
Arguments same_group_rows {P}.
Arguments with_groups {P}.
Arguments with_sessions {P}.

(** * Command arguments: [olm_cmd_parse_args]

    A character of the model is a code point below 256. *)

(** [str.isspace] on such a code point: tab to carriage return, the four
    separators from 28 to 31, the space, next-line and no-break space. *)
Definition isspace (c : ascii) : bool :=
  let n := nat_of_ascii c in
  ((9 <=? n) && (n <=? 13)) || ((28 <=? n) && (n <=? 32))
  || (n =? 133) || (n =? 160).

(** [args.split()]: the maximal runs of characters that are not
    whitespace, in order.  [word] is the run being read. *)
Fixpoint split_from (word : string) (s : string) : list string :=
  match s with
  | EmptyString =>
      match word with EmptyString => [] | _ => [word] end
  | String c rest =>
      if isspace c
      then match word with
           | EmptyString => split_from "" rest
           | _ => word :: split_from "" rest
           end
      else split_from (word +:+ String c "") rest
  end.

Definition str_split (s : string) : list string := split_from "" s.

(** [split_args.pop(0) if split_args else "info"], then what is left of
    [split_args]. *)
Definition olm_cmd_parse_args (args : string) : string * list string :=
  match str_split args with
  | [] => ("info", [])
  | command :: rest_args => (command, rest_args)
  end.

(** ** Vocabulary *)

(** A word: not empty, no whitespace in it. *)
Definition is_word (w : string) : Prop :=
  w ≠ "" ∧ Forall (λ c, isspace c = false) (list_ascii_of_string w).

Definition blank (s : string) : Prop :=
  Forall (λ c, isspace c = true) (list_ascii_of_string s).

(** The text with its spaces taken out. *)
Definition strip_spaces (s : string) : string :=
  string_of_list_ascii
    (filter (λ c, c ≠ " "%char) (list_ascii_of_string s)).

(** ** Loops and invariants *)

(** The value of a loop that parses each element and folds it in, when
    nothing else happens in its body. *)
Fixpoint parse_fold {A B C} (parse : A → result C) (step : B → A → C → B)
    (xs : list A) (acc : B) : result B :=
  match xs with
  | [] => Ok acc
  | x :: rest =>
      match parse x with
      | Ok c => parse_fold parse step rest (step acc x c)
      | Raise e => Raise e
      end
  end.

(** [from_pickle(bytes(pickle, "utf-8"))] as a value: what the load makes
    of one cell. *)
Definition from_cell {A} (from_pickle : string → result A) (pickle : Pickle)
    : result A :=
  match bytes_utf8 pickle with
  | Ok data => from_pickle data
  | Raise e => Raise e
  end.

(** A statement keeps [I]: whatever it returns or raises, a state with
    [I] is followed by a state with [I]. *)
Definition keeps {S A} (I : S → Prop) (m : M S A) : Prop :=
  ∀ s, I s → I (m s).1.

Section LoadedRegistries.
Context (P : Provider).

(** The registry the first loop of [from_session_dir] builds from the
    rows of [olmsessions], and the one the second loop builds from the
    rows of [inbound_group_sessions]. *)
Definition sessions_of_rows (rows : list (string * string * Pickle))
    : result (gmap string (list (Session P))) :=
  parse_fold (λ r : string * Pickle, from_cell (Session_from_pickle P) r.2)
    (λ sessions db_session session,
       <[db_session.1 :=
           default [] (sessions !! db_session.1) ++ [session]]> sessions)
    (map (λ row, (row.1.1, row.2)) rows) ∅.

Definition groups_of_rows (rows : list (string * string * Pickle))
    : result (gmap string (gmap string (InboundGroupSession P))) :=
  parse_fold (λ r : string * Pickle,
                from_cell (InboundGroupSession_from_pickle P) r.2)
    (λ groups db_session session,
       <[db_session.1 :=
           <[InboundGroupSession_id P session := session]>
             (default ∅ (groups !! db_session.1))]> groups)
    (map (λ row, (row.1.1, row.2)) rows) ∅.
End LoadedRegistries.

Section Frames.
Context (P : Provider).

(** What [decrypt] for [sender] leaves alone between a state [s0] and a
    later state [s]: the attributes other than the account and the
    sender's list, which does not get shorter; the gate; the files other
    than the manager's own; in its own file the group-session rows, the
    session rows there were, and the users of the account rows. *)
Record decrypt_frame (sender : string) (s0 s : St P) : Prop := {
  frame_user : user (self s) = user (self s0);
  frame_device_id : device_id (self s) = device_id (self s0);
  frame_session_path : session_path (self s) = session_path (self s0);
  frame_database : database (self s) = database (self s0);
  frame_device_keys : device_keys (self s) = device_keys (self s0);
  frame_groups :
    inbound_group_sessions (self s) = inbound_group_sessions (self s0);
  frame_gate : ENCRYPTION (world s) = ENCRYPTION (world s0);
  frame_other_senders : ∀ other, other ≠ sender →
    sessions (self s) !! other = sessions (self s0) !! other;
  frame_sender :
    length (default [] (sessions (self s0) !! sender))
    ≤ length (default [] (sessions (self s) !! sender));
  frame_other_files : ∀ conn, conn ≠ database (self s0) →
    files (world s) !! conn = files (world s0) !! conn;
  frame_group_rows :
    tbl_inbound_group_sessions (store s)
    = tbl_inbound_group_sessions (store s0);
  frame_session_rows :
    tbl_olmsessions (store s0) `prefix_of` tbl_olmsessions (store s);
  frame_account_rows :
    map fst (tbl_olmaccount (store s)) = map fst (tbl_olmaccount (store s0));
}.

(** What [to_session_dir] leaves alone: the manager, the gate, the
    output, the other files, and in its own file the group-session rows
    and the keys of every row. *)
Record save_frame (s0 s : St P) : Prop := {
  save_self : self s = self s0;
  save_gate : ENCRYPTION (world s) = ENCRYPTION (world s0);
  save_printed : printed (world s) = printed (world s0);
  save_other_files : ∀ conn, conn ≠ database (self s0) →
    files (world s) !! conn = files (world s0) !! conn;
  save_group_rows :
    tbl_inbound_group_sessions (store s)
    = tbl_inbound_group_sessions (store s0);
  save_session_keys :
    map fst (tbl_olmsessions (store s)) = map fst (tbl_olmsessions (store s0));
  save_account_keys :
    map fst (tbl_olmaccount (store s)) = map fst (tbl_olmaccount (store s0));
}.
End Frames.

Arguments decrypt_frame {P}.
Arguments save_frame {P}.

(** * More inputs for the small provider *)
Module Cases.
Import Toy.

(** A provider whose calls fail in ways the manager does not catch: the
    empty account cannot be pickled, no one-time key can be removed, and
    a session asked to decrypt raises [TypeError]. *)
Definition faulty : Provider :=
  {| Account := string;
     Session := string;
     InboundGroupSession := string;
     Account_new := "account";
     Account_pickle := λ a,
       if decide (a = "") then Raise OlmAccountError else Ok (Str a);
     Account_from_pickle := unpickle OlmAccountError;
     Account_remove_one_time_keys := λ a _, (a, Raise OlmAccountError);
     Account_mark_keys_as_published := λ a, (a +:+ "!", Ok tt);
     Account_sign := λ a text, Ok (a +:+ ":" +:+ text);
     InboundSession := λ _ message _, inbound message;
     Session_matches := λ s message,
       Ok (bool_decide (before "|" (ciphertext_of message) = ident s));
     Session_decrypt := λ s _, (s, Raise TypeError);
     Session_id := ident;
     Session_pickle := λ s, Ok (Str s);
     Session_from_pickle := unpickle OlmSessionError;
     InboundGroupSession_new := unpickle OlmGroupSessionError;
     InboundGroupSession_decrypt := open_with OlmGroupSessionError;
     InboundGroupSession_id := ident;
     InboundGroupSession_pickle := λ s, Ok (Str s);
     InboundGroupSession_from_pickle := unpickle OlmGroupSessionError |}.

(** The small provider with its pickles handed out as [bytes], the way
    python-olm hands them out on Python 3: the store gives them back as
    [bytes]. *)
Definition binary : Provider :=
  {| Account := string;
     Session := string;
     InboundGroupSession := string;
     Account_new := "account";
     Account_pickle := λ a, Ok (Bytes a);
     Account_from_pickle := unpickle OlmAccountError;
     Account_remove_one_time_keys := λ a _, (a +:+ "-", Ok tt);
     Account_mark_keys_as_published := λ a, (a +:+ "!", Ok tt);
     Account_sign := λ a text, Ok (a +:+ ":" +:+ text);
     InboundSession := λ _ message _, inbound message;
     Session_matches := λ s message,
       Ok (bool_decide (before "|" (ciphertext_of message) = ident s));
     Session_decrypt := λ s message,
       open_with OlmSessionError s (ciphertext_of message);
     Session_id := ident;
     Session_pickle := λ s, Ok (Bytes s);
     Session_from_pickle := unpickle OlmSessionError;
     InboundGroupSession_new := unpickle OlmGroupSessionError;
     InboundGroupSession_decrypt := open_with OlmGroupSessionError;
     InboundGroupSession_id := ident;
     InboundGroupSession_pickle := λ s, Ok (Bytes s);
     InboundGroupSession_from_pickle := unpickle OlmGroupSessionError |}.

(** The store a manager on that provider has written, and the manager:
    its account has had its keys marked as published since. *)
Definition db_binary : Database :=
  {| tbl_olmaccount := [("@me", Bytes "account")];
     tbl_olmsessions := [];
     tbl_inbound_group_sessions := [] |}.

Definition binary_state : St binary :=
  Build_St binary
    {| ENCRYPTION := true; printed := [];
       files := {[ "/tmp/@me_DEV.db" := db_binary ]};
       has_directory := λ _, true |}
    (Build_Olm binary "@me" "DEV" "/tmp" "/tmp/@me_DEV.db" ∅ "account!"
       ∅ ∅).

(** A manager on that provider, with the given account and one session
    [A] for [@alice]. *)
Definition faulty_state (account : string) : St faulty :=
  Build_St faulty
    {| ENCRYPTION := true; printed := [];
       files := {[ "/tmp/@me_DEV.db" := db_alice ]};
       has_directory := λ _, true |}
    (Build_Olm faulty "@me" "DEV" "/tmp" "/tmp/@me_DEV.db" ∅ account
       {[ "@alice" := ["A"] ]} ∅).

(** A process with the gate on and no file at all, in which every
    directory asked for is there; and one in which none is. *)
Definition nothing_saved : World :=
  {| ENCRYPTION := true; printed := []; files := ∅;
     has_directory := λ _, true |}.

Definition no_directory : World :=
  {| ENCRYPTION := true; printed := []; files := ∅;
     has_directory := λ _, false |}.

(** A store whose account row has a pickle the provider rejects. *)
Definition db_bad_account : Database :=
  {| tbl_olmaccount := [("@me", Str "")];
     tbl_olmsessions := [];
     tbl_inbound_group_sessions := [] |}.

(** A store with two rows for the group session [G] of [!room]: as it
    was provisioned, under the name [X], and after one message. *)
Definition db_groups : Database :=
  {| tbl_olmaccount := [("@me", Str "account")];
     tbl_olmsessions := [];
     tbl_inbound_group_sessions :=
       [("!room", "X", Str "G"); ("!room", "G", Str "G+")] |}.

(** A store that also has the account of another user of the same file;
    the manager of [@me] on it, with no session yet. *)
Definition db_shared : Database :=
  {| tbl_olmaccount := [("@me", Str "account"); ("@you", Str "theirs")];
     tbl_olmsessions := [("@alice", "A", Str "A")];
     tbl_inbound_group_sessions := [("!room", "G", Str "G")] |}.

Definition shared : St provider := state true db_shared ∅ ∅.

(** [@alice]'s session [B] has decrypted a message since its row was
    written. *)
Definition alice_advanced : St provider :=
  state true db_alice {[ "@alice" := ["A"; "B+"] ]} ∅.

(** The manager a load of [db_alice] returns. *)
Definition alice_loaded : Olm provider :=
  Build_Olm provider "@me" "DEV" "/tmp" "/tmp/@me_DEV.db" ∅ "account"
    {[ "@alice" := ["A"; "B"] ]} ∅.

(** The manager a load of [db_groups] returns. *)
Definition groups_loaded : Olm provider :=
  Build_Olm provider "@me" "DEV" "/tmp" "/tmp/@me_DEV.db" ∅ "account"
    ∅ {[ "!room" := {[ "G" := "G+" ]} ]}.

(** The manager a load of [db_account] returns. *)
Definition account_loaded : Olm provider :=
  Build_Olm provider "@me" "DEV" "/tmp" "/tmp/@me_DEV.db" ∅ "account" ∅ ∅.
End Cases.

(** * Running statements *)

Lemma bind_ok {S A B} (m : M S A) (k : A → M S B) s s' a :
  m s = (s', Ok a) → (m ≫= k) s = k a s'.
Proof. intros H. unfold mbind, M_bind, bind. by rewrite H. Qed.

Lemma bind_ok_ret {S A B} (m : M S A) (f : A → B) s s' a :
  m s = (s', Ok a) → (x ← m; mret (f x)) s = (s', Ok (f a)).
Proof. intros H. by rewrite (bind_ok _ _ _ _ _ H). Qed.

Lemma bind_raise {S A B} (m : M S A) (k : A → M S B) s s' e :
  m s = (s', Raise e) → (m ≫= k) s = (s', Raise e).
Proof. intros H. unfold mbind, M_bind, bind. by rewrite H. Qed.

Lemma try_except_ok {S A} (body : M S A) kinds handler s s' a :
  body s = (s', Ok a) → try_except body kinds handler s = (s', Ok a).
Proof. intros H. unfold try_except. by rewrite H. Qed.

Lemma try_except_caught {S A} (body : M S A) kinds handler s s' e :
  body s = (s', Raise e) → caught_by kinds e = true →
  try_except body kinds handler s = handler e s'.
Proof. intros H Hc. unfold try_except. by rewrite H, Hc. Qed.


Lemma try_except_passed {S A} (body : M S A) kinds handler s s' e :
  body s = (s', Raise e) → caught_by kinds e = false →
  try_except body kinds handler s = (s', Raise e).
Proof. intros H Hc. unfold try_except. by rewrite H, Hc. Qed.

Lemma encrypt_enabled_off {S A} `{Gated S} (f : M S (option A)) s :
  gate s = false → encrypt_enabled f s = (s, Ok None).
Proof. intros Hg. unfold encrypt_enabled. by rewrite Hg. Qed.

Lemma encrypt_enabled_on {S A} `{Gated S} (f : M S (option A)) s :
  gate s = true → encrypt_enabled f s = f s.
Proof. intros Hg. unfold encrypt_enabled. by rewrite Hg. Qed.

Ltac run_step :=
  unfold mbind, M_bind, bind, mret, M_ret, ret, get, modify, lift_result,
    raise; simpl.

Section OlmFacts.
Context (P : Provider).
Implicit Types (st : St P) (o : Olm P).

Lemma St_eta st : {| world := world st; self := self st |} = st.
Proof. by destruct st. Qed.

Lemma set_sessions_id o : set_sessions P (sessions o) o = o.
Proof. by destruct o. Qed.

Lemma set_inbound_group_sessions_id o :
  set_inbound_group_sessions P (inbound_group_sessions o) o = o.
Proof. by destruct o. Qed.

(** ** The gate *)

(** With the gate off, each wrapped operation returns [None] and leaves
    the state as it was. *)
Lemma gated_methods_off st :
  ENCRYPTION (world st) = false →
  (∀ sender sender_key message,
      decrypt P sender sender_key message st = (st, Ok None))
  ∧ (∀ room_id session_id ciphertext,
      group_decrypt P room_id session_id ciphertext st = (st, Ok None))
  ∧ to_session_dir P st = (st, Ok None)
  ∧ mark_keys_as_published P st = (st, Ok None).
Proof.
  intros Hoff. split_and!; intros; by apply encrypt_enabled_off.
Qed.

Lemma gated_constructors_off (w : World) :
  ENCRYPTION w = false →
  (∀ user device_id session_path,
      from_session_dir P user device_id session_path w = (w, Ok None))
  ∧ (∀ user device_id session_path database account sessions groups,
      Olm_init P user device_id session_path database account sessions
        groups w = (w, Ok None)).
Proof.
  intros Hoff. split; intros; by apply encrypt_enabled_off.
Qed.
End OlmFacts.
(** * Properties of the key formatter *)

Section GrouperFacts.
Context {A : Type}.
Implicit Types (it g : list A) (fill : A).

Lemma zip_round_take_drop (n : nat) fill it :
  zip_round n fill it
  = (take n it ++ replicate (n - length it) fill, drop n it).
Proof.
  revert it. induction n as [|n IH]; intros it; simpl.
  - by destruct it.
  - destruct it as [|x it]; rewrite IH; simpl.
    + rewrite take_nil, drop_nil, Nat.sub_0_r. done.
    + done.
Qed.

(** The rounds cut the input into tuples of [n], the last one filled up;
    [length it] rounds of fuel are never used up. *)
Lemma zip_rounds_groups (fuel n : nat) fill it :
  (0 < n)%nat → (length it ≤ fuel)%nat →
  ∃ pad, pad < n
    ∧ concat (zip_rounds fuel n fill it) = it ++ replicate pad fill
    ∧ Forall (λ g, length g = n) (zip_rounds fuel n fill it).
Proof.
  intros Hn. revert it.
  induction fuel as [|fuel IH]; intros it Hlen.
  - destruct it; [|simpl in Hlen; lia]. exists 0. simpl. split_and!; [lia|done|constructor].
  - destruct it as [|x it'] eqn:Hit.
    { exists 0. simpl. split_and!; [lia|done|constructor]. }
    rewrite <- Hit in *. assert (0 < length it) by (subst it; simpl; lia).
    assert (Hstep : zip_rounds (S fuel) n fill it
                    = (take n it ++ replicate (n - length it) fill)
                        :: zip_rounds fuel n fill (drop n it)).
    { subst it. cbn [zip_rounds]. by rewrite zip_round_take_drop. }
    rewrite Hstep. clear Hstep.
    destruct (IH (drop n it)) as (pad & Hpad & Hcat & Hall).
    { rewrite length_drop. lia. }
    destruct (decide (n ≤ length it)) as [Hle|Hgt].
    + exists pad. split_and!; [done| |].
      * simpl. rewrite Hcat. replace (n - length it) with 0 by lia. simpl.
        rewrite app_nil_r, app_assoc. by rewrite take_drop.
      * constructor; [|done].
        rewrite length_app, length_take, length_replicate. lia.
    + exists (n - length it). split_and!; [lia| |].
      * simpl. rewrite Hcat. rewrite drop_ge by lia. rewrite take_ge by lia.
        simpl in *. rewrite drop_ge in Hcat by lia.
        destruct pad; simpl; [by rewrite app_nil_r|].
        exfalso. rewrite drop_ge in Hall by lia.
        destruct fuel; simpl in Hcat; discriminate.
      * constructor; [|done].
        rewrite length_app, length_take, length_replicate. lia.
Qed.

Lemma grouper_groups it (n : nat) fill :
  (0 < n)%nat →
  ∃ pad, pad < n
    ∧ concat (grouper it n fill) = it ++ replicate pad fill
    ∧ Forall (λ g, length g = n) (grouper it n fill).
Proof.
  intros Hn. unfold grouper. destruct n; [lia|].
  by apply zip_rounds_groups.
Qed.

Lemma length_concat_uniform (n : nat) (gs : list (list A)) :
  Forall (λ g, length g = n) gs → length (concat gs) = n * length gs.
Proof.
  induction 1 as [|g gs Hg _ IH]; simpl; [lia|].
  rewrite length_app, IH, Hg. lia.
Qed.

Lemma last_group (n : nat) (gs : list (list A)) l g :
  Forall (λ g, length g = n) gs → concat gs = l → last gs = Some g →
  g = drop (n * (length gs - 1)) l.
Proof.
  intros Hall Hcat Hlast.
  apply last_Some in Hlast as [front ->].
  apply Forall_app in Hall as [Hfront _].
  rewrite concat_app in Hcat. simpl in Hcat. rewrite app_nil_r in Hcat.
  subst l. rewrite length_app. simpl.
  replace (length front + 1 - 1) with (length front) by lia.
  rewrite <- (length_concat_uniform n front Hfront).
  by rewrite drop_app_length.
Qed.
End GrouperFacts.

Lemma string_of_list_ascii_app (l1 l2 : list ascii) :
  string_of_list_ascii (l1 ++ l2)
  = string_of_list_ascii l1 +:+ string_of_list_ascii l2.
Proof. induction l1 as [|c l1 IH]; simpl; [done|]. by rewrite IH. Qed.

Lemma length_string_of_list_ascii (l : list ascii) :
  String.length (string_of_list_ascii l) = length l.
Proof. induction l as [|c l IH]; simpl; [done|]. by rewrite IH. Qed.

Lemma length_list_ascii_of_string (s : string) :
  length (list_ascii_of_string s) = String.length s.
Proof. induction s as [|c s IH]; simpl; [done|]. by rewrite IH. Qed.

Lemma append_empty_r (s : string) : s +:+ "" = s.
Proof.
  induction s as [|c s IH]; [done|].
  change (String c (s +:+ "") = String c s). by rewrite IH.
Qed.

Lemma concat_empty_sep (gs : list (list ascii)) :
  String.concat "" (map string_of_list_ascii gs)
  = string_of_list_ascii (concat gs).
Proof.
  induction gs as [|g gs IH]; [done|].
  cbn [map concat]. rewrite string_of_list_ascii_app, <- IH.
  destruct gs as [|g' gs]; [|done].
  simpl. by rewrite append_empty_r.
Qed.

(** C9: [partition_key] renders a key as 4-character groups joined by
    single spaces, the characters being those of the key followed by fewer
    than four spaces of padding; a 32-character key gives 8 groups and no
    padding, a 30-character key gives 8 groups whose last is the key's last
    two characters and two spaces. *)
Theorem partition_key_groups (key : string) :
  ∃ (groups : list string) (pad : nat),
    partition_key key = String.concat " " groups
    ∧ Forall (λ g, String.length g = 4) groups
    ∧ String.concat "" groups = key +:+ spaces pad
    ∧ pad < 4
    ∧ 4 * length groups = String.length key + pad
    ∧ (String.length key = 32 → length groups = 8 ∧ pad = 0)
    ∧ (String.length key = 30 →
       length groups = 8 ∧ pad = 2
       ∧ last groups
         = Some (string_of_list_ascii (drop 28 (list_ascii_of_string key))
                 +:+ "  ")).
Proof.
  set (chars := list_ascii_of_string key).
  destruct (grouper_groups chars 4 " "%char) as (pad & Hpad & Hcat & Hall);
    [lia|].
  set (gs := grouper chars 4 " "%char) in *.
  assert (Hcount : 4 * length gs = String.length key + pad).
  { rewrite <- (length_concat_uniform 4 gs Hall), Hcat.
    rewrite length_app, length_replicate.
    unfold chars. by rewrite length_list_ascii_of_string. }
  exists (map string_of_list_ascii gs), pad.
  rewrite length_map.
  split_and!; try done.
  - apply Forall_map. eapply Forall_impl; [exact Hall|].
    intros g Hg. simpl. by rewrite length_string_of_list_ascii.
  - rewrite concat_empty_sep, Hcat, string_of_list_ascii_app.
    unfold chars. by rewrite string_of_list_ascii_of_string.
  - lia.
  - intros Hlen. split_and!; [lia..|].
    assert (pad = 2) as -> by lia. assert (length gs = 8) as Hgs by lia.
    destruct (last gs) as [g|] eqn:Hlast.
    2: { apply last_None in Hlast. rewrite Hlast in Hgs. done. }
    pose proof (last_group 4 gs _ g Hall Hcat Hlast) as Hg.
    rewrite Hgs in Hg.
    apply last_Some in Hlast as [front Hfront].
    rewrite Hfront, map_app. cbn [map]. rewrite last_snoc. f_equal.
    rewrite Hg, drop_app_le.
    2: { unfold chars. rewrite length_list_ascii_of_string. lia. }
    by rewrite string_of_list_ascii_app.
Qed.

(** A 32-character key and a 30-character one. *)
Example partition_key_32 :
  partition_key "0123456789abcdefghijklmnopqrstuv"
  = "0123 4567 89ab cdef ghij klmn opqr stuv".
Proof. reflexivity. Qed.

Example partition_key_30 :
  partition_key "0123456789abcdefghijklmnopqrst"
  = "0123 4567 89ab cdef ghij klmn opqr st  ".
Proof. reflexivity. Qed.

Example partition_key_empty : partition_key "" = "".
Proof. reflexivity. Qed.

(** * Group decryption *)

Section GroupDecrypt.
Context (P : Provider).
Implicit Types (st : St P) (room_id session_id ciphertext : string).

(** [self.inbound_group_sessions[room_id]] returns the room's sessions
    and leaves them stored under the room. *)
Lemma inbound_group_sessions_getitem_run st room_id :
  let groups := inbound_group_sessions (self st) in
  let d := default ∅ (groups !! room_id) in
  inbound_group_sessions_getitem P room_id st
  = (with_groups st (<[room_id := d]> groups), Ok d).
Proof.
  intros groups d. unfold inbound_group_sessions_getitem, with_groups.
  subst d groups. run_step.
  destruct (inbound_group_sessions (self st) !! room_id) as [d|] eqn:Hd; simpl.
  - rewrite insert_id by done.
    by rewrite set_inbound_group_sessions_id, St_eta.
  - done.
Qed.

Lemma group_decrypt_unknown st room_id session_id ciphertext :
  ENCRYPTION (world st) = true →
  let groups := inbound_group_sessions (self st) in
  let d := default ∅ (groups !! room_id) in
  d !! session_id = None →
  group_decrypt P room_id session_id ciphertext st
  = (with_groups st (<[room_id := d]> groups), Ok None).
Proof.
  intros Hon groups d Hd. unfold group_decrypt.
  rewrite encrypt_enabled_on by done.
  erewrite bind_ok by apply inbound_group_sessions_getitem_run.
  fold groups d. by rewrite Hd.
Qed.

Lemma group_decrypt_known st room_id session_id ciphertext session session' r :
  ENCRYPTION (world st) = true →
  let groups := inbound_group_sessions (self st) in
  let d := default ∅ (groups !! room_id) in
  d !! session_id = Some session →
  InboundGroupSession_decrypt P session ciphertext = (session', r) →
  group_decrypt P room_id session_id ciphertext st
  = (with_groups st (<[room_id := <[session_id := session']> d]> groups),
     match r with
     | Ok plaintext => Ok (Some plaintext)
     | Raise OlmGroupSessionError => Ok None
     | Raise e => Raise e
     end).
Proof.
  intros Hon groups d Hd Hdec. unfold group_decrypt.
  rewrite encrypt_enabled_on by done.
  erewrite bind_ok by apply inbound_group_sessions_getitem_run.
  fold groups d. rewrite Hd.
  unfold InboundGroupSession_decrypt_in_place. rewrite Hdec.
  unfold try_except, modify_self, with_groups. run_step.
  rewrite alter_insert_eq.
  destruct r as [plaintext|e]; simpl; [done|].
  by destruct e.
Qed.

Lemma create_group_session_run st room_id session_id session_key session pickle :
  InboundGroupSession_new P session_key = Ok session →
  InboundGroupSession_pickle P session = Ok pickle →
  let groups := inbound_group_sessions (self st) in
  let d := default ∅ (groups !! room_id) in
  create_group_session P room_id session_id session_key st
  = ({| world :=
          set_files
            (<[database (self st) :=
                 sql_insert_inbound_group_sessions room_id
                   (InboundGroupSession_id P session) pickle (store st)]>)
            (set_printed
               (λ out, out ++ [("", "matrix: Creating group session for "
                                    +:+ room_id)])
               (world st));
        self := set_inbound_group_sessions P
                  (<[room_id := <[session_id := session]> d]> groups)
                  (self st) |},
     Ok tt).
Proof.
  intros Hnew Hpickle groups d. unfold create_group_session.
  unfold in_world, W_prnt. run_step. rewrite Hnew. simpl.
  rewrite inbound_group_sessions_getitem_run. simpl.
  unfold modify_self, _store_inbound_group_session. run_step.
  rewrite Hpickle. simpl. unfold in_world, execute. run_step.
  rewrite insert_insert_eq. done.
Qed.

(** C5: with the gate on, [group_decrypt] returns [None] when no session
    is registered under the room and identifier; when one is, a group
    session error of the provider gives [None] and a decrypted plaintext
    is returned; so a session provisioned by [create_group_session]
    decrypts at once what its key decrypts.  Looking up never registers
    a session: the room's sessions afterwards are those it had, the one
    asked to decrypt in its new state. *)
Theorem group_decrypt_lookup st room_id session_id ciphertext :
  ENCRYPTION (world st) = true →
  let groups := inbound_group_sessions (self st) in
  let d := default ∅ (groups !! room_id) in
  (d !! session_id = None →
   group_decrypt P room_id session_id ciphertext st
   = (with_groups st (<[room_id := d]> groups), Ok None))
  ∧ (∀ session session',
      d !! session_id = Some session →
      InboundGroupSession_decrypt P session ciphertext
      = (session', Raise OlmGroupSessionError) →
      group_decrypt P room_id session_id ciphertext st
      = (with_groups st (<[room_id := <[session_id := session']> d]> groups),
         Ok None))
  ∧ (∀ session session' plaintext,
      d !! session_id = Some session →
      InboundGroupSession_decrypt P session ciphertext
      = (session', Ok plaintext) →
      group_decrypt P room_id session_id ciphertext st
      = (with_groups st (<[room_id := <[session_id := session']> d]> groups),
         Ok (Some plaintext)))
  ∧ (∀ session_key session pickle session' plaintext,
      InboundGroupSession_new P session_key = Ok session →
      InboundGroupSession_pickle P session = Ok pickle →
      InboundGroupSession_decrypt P session ciphertext
      = (session', Ok plaintext) →
      ∃ st1 st2,
        create_group_session P room_id session_id session_key st
        = (st1, Ok tt)
        ∧ group_decrypt P room_id session_id ciphertext st1
          = (st2, Ok (Some plaintext))).
Proof.
  intros Hon groups d. split_and!.
  - intros Hd. by apply group_decrypt_unknown.
  - intros session session' Hd Hdec.
    by rewrite (group_decrypt_known st _ _ _ session session' _ Hon Hd Hdec).
  - intros session session' plaintext Hd Hdec.
    by rewrite (group_decrypt_known st _ _ _ session session' _ Hon Hd Hdec).
  - intros session_key session pickle session' plaintext Hnew Hpickle Hdec.
    eexists _, _. split.
    + by apply create_group_session_run.
    + eapply eq_trans; [|reflexivity].
      eapply (group_decrypt_known _ _ _ _ session session' (Ok plaintext));
        [done| |exact Hdec].
      simpl. rewrite lookup_insert_eq. simpl. by rewrite lookup_insert_eq.
Qed.

(** C10: for a room with no provisioned group session, known to the
    registry or not, [group_decrypt] returns [None] and raises nothing;
    the process state, the store with it, is as before, and of the
    manager only the group registry can differ: behind the gate the
    room is now stored with no sessions, and every other room is as it
    was. *)
Theorem group_decrypt_unprovisioned_room st room_id session_id ciphertext :
  default ∅ (inbound_group_sessions (self st) !! room_id) = ∅ →
  let groups := inbound_group_sessions (self st) in
  let groups' :=
    if ENCRYPTION (world st) then <[room_id := ∅]> groups else groups in
  group_decrypt P room_id session_id ciphertext st
  = (with_groups st groups', Ok None)
  ∧ world (with_groups st groups') = world st
  ∧ store (with_groups st groups') = store st
  ∧ ∀ other, other ≠ room_id → groups' !! other = groups !! other.
Proof.
  intros Hempty groups groups'. split_and!; [|done|done|].
  - subst groups'. destruct (ENCRYPTION (world st)) eqn:Hgate.
    + rewrite group_decrypt_unknown by (done || by rewrite Hempty).
      by rewrite Hempty.
    + unfold with_groups, groups.
      rewrite set_inbound_group_sessions_id, St_eta.
      by apply gated_methods_off.
  - intros other Hother. subst groups'.
    destruct (ENCRYPTION (world st)); [|done].
    by rewrite lookup_insert_ne.
Qed.
End GroupDecrypt.

(** * Pairwise decryption *)

Section Decrypt.
Context (P : Provider).
Implicit Types (st : St P) (sender sender_key : string) (message : Message).
Implicit Types (session : Session P) (pre todo : list (Session P)).

Lemma with_sessions_twice st registry registry' :
  with_sessions (with_sessions st registry) registry'
  = with_sessions st registry'.
Proof. done. Qed.

Lemma with_sessions_same st : with_sessions st (sessions (self st)) = st.
Proof. unfold with_sessions. by rewrite set_sessions_id, St_eta. Qed.

(** [self.sessions[sender]] returns the sender's list and leaves it
    stored under the sender. *)
Lemma sessions_getitem_run st sender :
  let l := default [] (sessions (self st) !! sender) in
  sessions_getitem P sender st
  = (with_sessions st (<[sender := l]> (sessions (self st))), Ok l).
Proof.
  intros l. subst l. unfold sessions_getitem, with_sessions. run_step.
  destruct (sessions (self st) !! sender) as [l|] eqn:Hl; simpl.
  - rewrite insert_id by done. by rewrite set_sessions_id, St_eta.
  - done.
Qed.

(** The object at position [length pre] takes its new state. *)
Lemma Session_decrypt_in_place_run st sender message pre session session'
    todo r :
  sessions (self st) !! sender = Some (pre ++ session :: todo) →
  Session_decrypt P session message = (session', r) →
  Session_decrypt_in_place P sender (length pre) session message st
  = (with_sessions st
       (<[sender := pre ++ session' :: todo]> (sessions (self st))), r).
Proof.
  intros Hl Hdec. unfold Session_decrypt_in_place, modify_self. rewrite Hdec.
  run_step. unfold with_sessions. do 3 f_equal.
  rewrite <- (insert_id _ _ _ Hl) at 1. rewrite alter_insert_eq. f_equal.
  rewrite insert_app_r_alt by done. by rewrite Nat.sub_diag.
Qed.

(** A session that declines is passed over; what it turned into stays in
    its place. *)
Lemma decrypt_attempt_declined st sender message pre session session' todo :
  sessions (self st) !! sender = Some (pre ++ session :: todo) →
  declines message session session' →
  decrypt_attempt P sender message (length pre) session st
  = (with_sessions st
       (<[sender := pre ++ session' :: todo]> (sessions (self st))),
     Ok None).
Proof.
  intros Hl Hdecl. unfold decrypt_attempt.
  assert (Hsame : with_sessions st
                    (<[sender := pre ++ session :: todo]> (sessions (self st)))
                  = st).
  { rewrite insert_id by done. apply with_sessions_same. }
  destruct Hdecl as [session Hpre Hm|session Hpre Hm|session session' Hm Hdec].
  - rewrite Hsame. unfold try_except. run_step. rewrite Hpre, Hm. done.
  - rewrite Hsame. unfold try_except. run_step. rewrite Hpre, Hm. done.
  - unfold try_except. run_step.
    destruct (is_prekey message); [rewrite Hm by done|]; simpl;
      by rewrite (Session_decrypt_in_place_run st _ _ _ _ _ _ _ Hl Hdec).
Qed.

Lemma decrypt_attempt_decrypts st sender message pre session session' todo
    plaintext :
  sessions (self st) !! sender = Some (pre ++ session :: todo) →
  decrypts message session session' plaintext →
  decrypt_attempt P sender message (length pre) session st
  = (with_sessions st
       (<[sender := pre ++ session' :: todo]> (sessions (self st))),
     Ok (Some plaintext)).
Proof.
  intros Hl [Hm Hdec]. unfold decrypt_attempt, try_except. run_step.
  destruct (is_prekey message); [rewrite Hm by done|]; simpl;
    by rewrite (Session_decrypt_in_place_run st _ _ _ _ _ _ _ Hl Hdec).
Qed.

(** The loop passes over sessions that decline, in order. *)
Lemma decrypt_loop_declined st sender message pre todo todo' :
  sessions (self st) !! sender = Some (pre ++ todo) →
  Forall2 (declines message) todo todo' →
  decrypt_loop P sender message (length pre) todo st
  = (with_sessions st (<[sender := pre ++ todo']> (sessions (self st))),
     Ok None).
Proof.
  intros Hl Hall. revert st pre Hl.
  induction Hall as [|session session' todo todo' Hdecl _ IH]; intros st pre Hl.
  - simpl. rewrite insert_id by done. by rewrite with_sessions_same.
  - cbn [decrypt_loop].
    erewrite bind_ok by (by apply decrypt_attempt_declined).
    replace (S (length pre)) with (length (pre ++ [session']))
      by (rewrite length_app; simpl; lia).
    rewrite IH.
    + simpl. rewrite insert_insert_eq, <- app_assoc. done.
    + simpl. rewrite lookup_insert_eq, <- app_assoc. done.
Qed.

(** The loop returns at the first session that decrypts and leaves the
    sessions after it alone. *)
Lemma decrypt_loop_first st sender message pre l1 l1' session session' l2
    plaintext :
  sessions (self st) !! sender = Some (pre ++ l1 ++ session :: l2) →
  Forall2 (declines message) l1 l1' →
  decrypts message session session' plaintext →
  decrypt_loop P sender message (length pre) (l1 ++ session :: l2) st
  = (with_sessions st
       (<[sender := pre ++ l1' ++ session' :: l2]> (sessions (self st))),
     Ok (Some plaintext)).
Proof.
  intros Hl Hall Hdec. revert st pre Hl.
  induction Hall as [|s s' l1 l1' Hdecl _ IH]; intros st pre Hl.
  - cbn [app decrypt_loop].
    erewrite bind_ok by (by apply decrypt_attempt_decrypts). done.
  - cbn [app decrypt_loop].
    erewrite bind_ok by (by apply decrypt_attempt_declined).
    replace (S (length pre)) with (length (pre ++ [s']))
      by (rewrite length_app; simpl; lia).
    rewrite IH.
    + simpl. rewrite insert_insert_eq, <- app_assoc. done.
    + simpl. rewrite lookup_insert_eq, <- app_assoc. done.
Qed.

(** [decrypt] when one of the sender's sessions decrypts. *)
Lemma decrypt_existing_session st sender sender_key message l1 l1' session
    session' l2 plaintext :
  ENCRYPTION (world st) = true →
  sessions (self st) !! sender = Some (l1 ++ session :: l2) →
  Forall2 (declines message) l1 l1' →
  decrypts message session session' plaintext →
  decrypt P sender sender_key message st
  = (with_sessions st
       (<[sender := l1' ++ session' :: l2]> (sessions (self st))),
     Ok (Some plaintext)).
Proof.
  intros Hon Hl Hall Hdec. unfold decrypt.
  rewrite encrypt_enabled_on by done.
  erewrite bind_ok by apply sessions_getitem_run.
  rewrite Hl. simpl. rewrite insert_id by done. rewrite with_sessions_same.
  erewrite bind_ok by (by apply (decrypt_loop_first st sender message [])).
  done.
Qed.


(** [_create_session] when the provider builds [session] and nothing
    raises: the session is appended, its row inserted, the one-time key
    removed and the account row updated. *)
Lemma _create_session_run st sender sender_key message session pickle
    account' account_pickle :
  InboundSession P (account (self st)) message sender_key = Ok session →
  Session_pickle P session = Ok pickle →
  Account_remove_one_time_keys P (account (self st)) session
  = (account', Ok tt) →
  Account_pickle P account' = Ok account_pickle →
  let l := default [] (sessions (self st) !! sender) in
  _create_session P sender sender_key message st
  = ({| world :=
          set_files
            (<[database (self st) :=
                 sql_update_olmaccount account_pickle (user (self st))
                   (sql_insert_olmsessions sender (Session_id P session)
                      pickle (store st))]>)
            (set_printed (λ out, out ++ [creating sender; created sender])
               (world st));
        self := set_account P account'
                  (set_sessions P
                     (<[sender := l ++ [session]]> (sessions (self st)))
                     (self st)) |},
     Ok (length l, session)).
Proof.
  intros Hin Hpickle Hremove Hacc l.
  unfold _create_session, in_world, W_prnt. run_step. rewrite Hin. simpl.
  unfold sessions_append.
  erewrite bind_ok by apply sessions_getitem_run. fold l.
  unfold modify_self, _store_session, _update_acc_in_db. run_step.
  rewrite Hpickle. simpl. unfold in_world, execute. run_step.
  rewrite Hremove. simpl. rewrite Hacc. simpl.
  unfold set_files, set_printed, db_of, store, db_of. simpl.
  rewrite !insert_insert_eq, lookup_insert_eq, <- app_assoc. done.
Qed.


(** [decrypt] when every session of the sender declines and a new one is
    built: it is asked to decrypt once, and whatever comes of that is the
    outcome of the call. *)
Lemma decrypt_bootstrap st sender sender_key message l l' session pickle
    account' account_pickle session' r :
  ENCRYPTION (world st) = true →
  default [] (sessions (self st) !! sender) = l →
  Forall2 (declines message) l l' →
  InboundSession P (account (self st)) message sender_key = Ok session →
  Session_pickle P session = Ok pickle →
  Account_remove_one_time_keys P (account (self st)) session
  = (account', Ok tt) →
  Account_pickle P account' = Ok account_pickle →
  Session_decrypt P session message = (session', r) →
  decrypt P sender sender_key message st
  = ({| world :=
          set_files
            (<[database (self st) :=
                 sql_update_olmaccount account_pickle (user (self st))
                   (sql_insert_olmsessions sender (Session_id P session)
                      pickle (store st))]>)
            (set_printed (λ out, out ++ [creating sender; created sender])
               (world st));
        self := set_account P account'
                  (set_sessions P
                     (<[sender := l' ++ [session']]> (sessions (self st)))
                     (self st)) |},
     after_retry r).
Proof.
  intros Hon Hl Hall Hin Hpickle Hremove Hacc Hdec. unfold decrypt.
  rewrite encrypt_enabled_on by done.
  erewrite bind_ok by apply sessions_getitem_run. rewrite Hl.
  erewrite bind_ok.
  2: { apply (decrypt_loop_declined _ sender message [] l l'); [|done].
       simpl. by rewrite lookup_insert_eq. }
  simpl. rewrite insert_insert_eq.
  erewrite bind_ok.
  2: { eapply try_except_ok.
       eapply (bind_ok_ret _ Some). by eapply _create_session_run. }
  simpl. rewrite lookup_insert_eq. simpl.
  unfold try_except.
  unfold mbind, M_bind, bind.
  erewrite (Session_decrypt_in_place_run _ sender message l' session
              session' [] r); [|simpl; by rewrite lookup_insert_eq|done].
  unfold with_sessions, store. simpl. rewrite !insert_insert_eq.
  destruct r as [plaintext|e]; simpl; [done|].
  by destruct (exn_eqb_kind e OlmSessionError).
Qed.

(** C1: [decrypt] goes through the sender's sessions in list order, which
    is the order they were appended in; a session that raises the
    provider's session error (or is passed over) lets the next one be
    tried; the first one that decrypts gives the plaintext returned, and
    the sessions after it are not touched. *)
Theorem decrypt_first_success st sender sender_key message l1 l1' session
    session' l2 plaintext :
  ENCRYPTION (world st) = true →
  sessions (self st) !! sender = Some (l1 ++ session :: l2) →
  Forall2 (declines message) l1 l1' →
  decrypts message session session' plaintext →
  ∃ st',
    decrypt P sender sender_key message st = (st', Ok (Some plaintext))
    ∧ sessions (self st') !! sender = Some (l1' ++ session' :: l2).
Proof.
  intros Hon Hl Hall Hdec. eexists. split.
  - by eapply decrypt_existing_session.
  - simpl. by rewrite lookup_insert_eq.
Qed.

(** C2, as the code has it: when [decrypt] succeeds with a session that
    was already there, the advanced session is in the registry and the
    process state, every table of the store with it, is what it was
    before the call: [decrypt] writes nothing. *)
Theorem decrypt_existing_keeps_store st sender sender_key message l1 l1'
    session session' l2 plaintext :
  ENCRYPTION (world st) = true →
  sessions (self st) !! sender = Some (l1 ++ session :: l2) →
  Forall2 (declines message) l1 l1' →
  decrypts message session session' plaintext →
  ∃ st',
    decrypt P sender sender_key message st = (st', Ok (Some plaintext))
    ∧ sessions (self st') !! sender = Some (l1' ++ session' :: l2)
    ∧ world st' = world st
    ∧ store st' = store st.
Proof.
  intros Hon Hl Hall Hdec. eexists. split_and!.
  - by eapply decrypt_existing_session.
  - simpl. by rewrite lookup_insert_eq.
  - done.
  - done.
Qed.

(** C3: for a sender with no session, when the provider builds a session
    from the account and the message, [decrypt] leaves exactly that
    session in the sender's list, inserts its row, removes the one-time
    key and updates the account row, and asks the new session to decrypt
    once: its plaintext is returned, and its session error gives [None].
    The account table after the call is the one before with the new
    account's pickle in every row of the manager's user: each such row
    holds it, a store that had a row for the user has one that holds it,
    and the rows of other users are as they were.  The kind of the
    message plays no part. *)
Theorem decrypt_first_contact st sender sender_key message session pickle
    account' account_pickle session' r :
  ENCRYPTION (world st) = true →
  default [] (sessions (self st) !! sender) = [] →
  InboundSession P (account (self st)) message sender_key = Ok session →
  Session_pickle P session = Ok pickle →
  Account_remove_one_time_keys P (account (self st)) session
  = (account', Ok tt) →
  Account_pickle P account' = Ok account_pickle →
  Session_decrypt P session message = (session', r) →
  ∃ st' outcome,
    decrypt P sender sender_key message st = (st', outcome)
    ∧ sessions (self st') = <[sender := [session']]> (sessions (self st))
    ∧ account (self st') = account'
    ∧ tbl_olmsessions (store st')
      = tbl_olmsessions (store st) ++ [(sender, Session_id P session, pickle)]
    ∧ tbl_olmaccount (store st')
      = map (λ row, if decide (row.1 = user (self st))
                    then (row.1, account_pickle) else row)
          (tbl_olmaccount (store st))
    ∧ (∀ row, row ∈ tbl_olmaccount (store st') →
         row.1 = user (self st) → row.2 = account_pickle)
    ∧ (∀ old, (user (self st), old) ∈ tbl_olmaccount (store st) →
         (user (self st), account_pickle) ∈ tbl_olmaccount (store st'))
    ∧ tbl_inbound_group_sessions (store st')
      = tbl_inbound_group_sessions (store st)
    ∧ (∀ plaintext, r = Ok plaintext → outcome = Ok (Some plaintext))
    ∧ (r = Raise OlmSessionError → outcome = Ok None).
Proof.
  intros Hon Hl Hin Hpickle Hremove Hacc Hdec. eexists _, _. split.
  { by eapply (decrypt_bootstrap st sender sender_key message [] []). }
  unfold store, db_of. simpl. rewrite lookup_insert_eq. simpl.
  split_and!; try done.
  - intros row Hrow%list_elem_of_In%in_map_iff Huser.
    destruct Hrow as (old & <- & _).
    destruct (decide (old.1 = user (self st))); simpl in *; [done|].
    by destruct n.
  - intros old Hold. apply list_elem_of_In, in_map_iff.
    exists (user (self st), old). split; [|by apply list_elem_of_In].
    simpl. by rewrite decide_True.
  - by intros plaintext ->.
  - by intros ->.
Qed.

End Decrypt.

(** * Operations outside the gate *)

Section Ungated.
Context (P : Provider) {Json : Type} (json_dumps : Json → string).
Implicit Types (st : St P).

(** [create_group_session] has no [encrypt_enabled] wrapper: whatever
    the gate says, its notice is printed. *)
Lemma create_group_session_prints st room_id session_id session_key :
  printed (world (create_group_session P room_id session_id session_key st).1)
  = printed (world st)
    ++ [("", "matrix: Creating group session for " +:+ room_id)].
Proof.
  unfold create_group_session, in_world, W_prnt. run_step.
  destruct (InboundGroupSession_new P session_key) as [session|e]; simpl;
    [|done].
  rewrite inbound_group_sessions_getitem_run. simpl.
  unfold modify_self, _store_inbound_group_session. run_step.
  destruct (InboundGroupSession_pickle P session) as [pickle|e]; simpl; done.
Qed.

(** When the provider's constructor raises, the error is the caller's,
    gate or no gate. *)
Lemma create_group_session_raises st room_id session_id session_key e :
  InboundGroupSession_new P session_key = Raise e →
  create_group_session P room_id session_id session_key st
  = ({| world :=
          set_printed
            (λ out, out ++ [("", "matrix: Creating group session for "
                                 +:+ room_id)])
            (world st);
        self := self st |},
     Raise e).
Proof.
  intros Hnew. unfold create_group_session, in_world, W_prnt. run_step.
  by rewrite Hnew.
Qed.

(** [sign_json] has no wrapper either: it answers with what the account
    signs. *)
Lemma sign_json_run st (json_dict : Json) :
  sign_json P json_dumps json_dict st
  = (st, Account_sign P (account (self st)) (json_dumps json_dict)).
Proof. done. Qed.
End Ungated.

(** * Saving *)

Section Saving.
Context (P : Provider).
Implicit Types (st : St P).

Lemma for_each_preserves {S A} (Inv : S → Prop) (xs : list A)
    (body : A → M S unit) :
  (∀ x s, Inv s → Inv (body x s).1) →
  ∀ s, Inv s → Inv (for_each xs body s).1.
Proof.
  intros Hbody. induction xs as [|x xs IH]; intros s Hs; simpl; [done|].
  unfold mbind, M_bind, bind. specialize (Hbody x s Hs).
  destruct (body x s) as [s' [[]|e]]; simpl in *; [by apply IH|done].
Qed.

Lemma execute_same_group_rows w st conn stmt :
  (∀ db, tbl_inbound_group_sessions (stmt db)
         = tbl_inbound_group_sessions db) →
  same_group_rows w st →
  same_group_rows w (in_world P (execute conn stmt) st).1.
Proof.
  intros Hstmt Hsame conn'. unfold in_world, execute. run_step.
  unfold db_of at 1. simpl.
  destruct (decide (conn = conn')) as [->|Hne].
  - rewrite lookup_insert_eq. simpl. rewrite Hstmt. apply Hsame.
  - rewrite lookup_insert_ne by done. apply Hsame.
Qed.

Lemma _update_acc_in_db_same_group_rows w st :
  same_group_rows w st → same_group_rows w (_update_acc_in_db P st).1.
Proof.
  intros Hsame. unfold _update_acc_in_db. run_step.
  destruct (Account_pickle P (account (self st))) as [pickle|e]; simpl;
    [|done].
  by apply execute_same_group_rows.
Qed.

Lemma _update_sessions_in_db_same_group_rows w st :
  same_group_rows w st → same_group_rows w (_update_sessions_in_db P st).1.
Proof.
  intros Hsame. unfold _update_sessions_in_db.
  unfold mbind at 1, M_bind, bind, get.
  apply for_each_preserves; [|done].
  intros [user session_list] s Hs.
  apply for_each_preserves; [|done].
  intros session s' Hs'. run_step.
  destruct (Session_pickle P session) as [pickle|e]; simpl; [|done].
  by apply execute_same_group_rows.
Qed.

(** [to_session_dir] writes the account and the pairwise sessions; it
    does not call [_update_inbound_group_sessions], and no row of the
    group-session table changes. *)
Lemma to_session_dir_keeps_group_rows st conn :
  tbl_inbound_group_sessions (db_of (world (to_session_dir P st).1) conn)
  = tbl_inbound_group_sessions (db_of (world st) conn).
Proof.
  assert (Hsame : same_group_rows (world st) (to_session_dir P st).1);
    [|apply Hsame].
  unfold to_session_dir, encrypt_enabled.
  destruct (gate st); [|done].
  unfold try_except, mbind, M_bind, bind.
  pose proof (_update_acc_in_db_same_group_rows (world st) st) as Hacc.
  destruct (_update_acc_in_db P st) as [st1 [[]|e]]; simpl in *.
  - pose proof (_update_sessions_in_db_same_group_rows (world st) st1) as Hs.
    destruct (_update_sessions_in_db P st1) as [st2 [[]|e]]; simpl in *.
    + by apply Hs, Hacc.
    + destruct (exn_eqb_kind e OlmAccountError); simpl; by apply Hs, Hacc.
  - destruct (exn_eqb_kind e OlmAccountError); simpl; by apply Hacc.
Qed.
End Saving.

(** * Loading *)

Section FoldEach.
Context {S A B C : Type}.
Context (parse : A → result C) (step : B → A → C → B).
Context (body : B → A → M S B).
Hypothesis body_parses : ∀ acc x s,
  body acc x s = (s, match parse x with
                     | Ok c => Ok (step acc x c)
                     | Raise e => Raise e
                     end).

Lemma fold_each_accepted xs acc s :
  Forall (λ x, ∃ c, parse x = Ok c) xs →
  ∃ acc', fold_each xs acc body s = (s, Ok acc').
Proof.
  intros Hall. revert acc.
  induction Hall as [|x xs [c Hc] _ IH]; intros acc; simpl; [by eexists|].
  unfold mbind, M_bind, bind. rewrite body_parses, Hc. apply IH.
Qed.

Lemma fold_each_rejected pre x post e acc s :
  Forall (λ x, ∃ c, parse x = Ok c) pre →
  parse x = Raise e →
  fold_each (pre ++ x :: post) acc body s = (s, Raise e).
Proof.
  intros Hall Hx. revert acc.
  induction Hall as [|y pre [c Hc] _ IH]; intros acc; simpl;
    unfold mbind, M_bind, bind; rewrite body_parses.
  - by rewrite Hx.
  - rewrite Hc. apply IH.
Qed.

Lemma fold_each_ok_inv xs acc s s' acc' :
  fold_each xs acc body s = (s', Ok acc') →
  s' = s ∧ Forall (λ x, ∃ c, parse x = Ok c) xs.
Proof.
  revert acc. induction xs as [|x xs IH]; intros acc; simpl.
  - intros [= -> _]. by split.
  - unfold mbind, M_bind, bind. rewrite body_parses.
    destruct (parse x) as [c|e] eqn:Hx; [|done].
    intros [-> Hall]%IH. split; [done|]. constructor; [by eexists|done].
Qed.
End FoldEach.

Section Loading.
Context (P : Provider).
Implicit Types (w : World) (db : Database).

Lemma load_session_parses sessions db_session w :
  load_session P sessions db_session w
  = (w, match from_cell (Session_from_pickle P) db_session.2 with
        | Ok session =>
            Ok (<[db_session.1 :=
                    default [] (sessions !! db_session.1) ++ [session]]>
                  sessions)
        | Raise e => Raise e
        end).
Proof.
  unfold load_session, from_cell. run_step.
  destruct (bytes_utf8 db_session.2) as [data|e]; simpl; [|done].
  by destruct (Session_from_pickle P data).
Qed.

Lemma load_inbound_group_session_parses groups db_session w :
  load_inbound_group_session P groups db_session w
  = (w, match from_cell (InboundGroupSession_from_pickle P) db_session.2
        with
        | Ok session =>
            Ok (<[db_session.1 :=
                    <[InboundGroupSession_id P session := session]>
                      (default ∅ (groups !! db_session.1))]> groups)
        | Raise e => Raise e
        end).
Proof.
  unfold load_inbound_group_session, from_cell. run_step.
  destruct (bytes_utf8 db_session.2) as [data|e]; simpl; [|done].
  by destruct (InboundGroupSession_from_pickle P data).
Qed.

(** On a file that has its tables, [from_session_dir] gets as far as the
    [try] statement with the world as it was. *)
Lemma from_session_dir_reads w user device_id session_path db row rest :
  ENCRYPTION w = true →
  files w !! db_path user device_id session_path = Some db →
  filter (λ row, row.1 = user) (tbl_olmaccount db) = row :: rest →
  from_session_dir P user device_id session_path w
  = try_except
      (account ← lift_result (from_cell (Account_from_pickle P) row.2);
       sessions ←
         fold_each (map (λ row, (row.1.1, row.2)) (tbl_olmsessions db)) ∅
           (load_session P);
       inbound_group_sessions ←
         fold_each
           (map (λ row, (row.1.1, row.2)) (tbl_inbound_group_sessions db)) ∅
           (load_inbound_group_session P);
       Olm_init P user device_id session_path
         (Some (db_path user device_id session_path)) (Some account)
         (Some sessions) (Some inbound_group_sessions))
      [OlmAccountError; OlmSessionError]
      (λ error, raise (EncryptionError error)) w.
Proof.
  intros Hon Hfile Hrow. unfold from_session_dir.
  rewrite encrypt_enabled_on by done.
  unfold sqlite3_connect, _check_db_tables. run_step. rewrite Hfile. simpl.
  rewrite Hfile. simpl. unfold db_of. rewrite Hfile. simpl. rewrite Hrow.
  unfold try_except, from_cell. run_step.
  by destruct (bytes_utf8 row.2).
Qed.

(** A pairwise-session pickle the provider rejects with its session
    error ends the load with [EncryptionError]. *)
Lemma from_session_dir_session_rejected w user device_id session_path db row
    rest account pre bad post :
  ENCRYPTION w = true →
  files w !! db_path user device_id session_path = Some db →
  filter (λ row, row.1 = user) (tbl_olmaccount db) = row :: rest →
  from_cell (Account_from_pickle P) row.2 = Ok account →
  tbl_olmsessions db = pre ++ bad :: post →
  Forall (λ row, ∃ session,
            from_cell (Session_from_pickle P) row.2 = Ok session) pre →
  from_cell (Session_from_pickle P) bad.2 = Raise OlmSessionError →
  from_session_dir P user device_id session_path w
  = (w, Raise (EncryptionError OlmSessionError)).
Proof.
  intros Hon Hfile Hrow Hacc Hrows Hpre Hbad.
  rewrite (from_session_dir_reads w _ _ _ db row rest) by done.
  erewrite try_except_caught; [done| |done].
  run_step. rewrite Hacc. simpl. rewrite Hrows, map_app. cbn [map].
  erewrite (fold_each_rejected
              (λ r, from_cell (Session_from_pickle P) r.2) _ _
              (load_session_parses));
    [done| |exact Hbad].
  apply Forall_map. eapply Forall_impl; [exact Hpre|]. done.
Qed.

(** A group-session pickle the provider rejects comes with
    [OlmGroupSessionError], which the [except] clause does not name: the
    error leaves [from_session_dir] as it is. *)
Lemma from_session_dir_group_rejected w user device_id session_path db row
    rest account pre bad post :
  ENCRYPTION w = true →
  files w !! db_path user device_id session_path = Some db →
  filter (λ row, row.1 = user) (tbl_olmaccount db) = row :: rest →
  from_cell (Account_from_pickle P) row.2 = Ok account →
  Forall (λ row, ∃ session,
            from_cell (Session_from_pickle P) row.2 = Ok session)
    (tbl_olmsessions db) →
  tbl_inbound_group_sessions db = pre ++ bad :: post →
  Forall (λ row, ∃ session,
            from_cell (InboundGroupSession_from_pickle P) row.2
            = Ok session) pre →
  from_cell (InboundGroupSession_from_pickle P) bad.2
  = Raise OlmGroupSessionError →
  from_session_dir P user device_id session_path w
  = (w, Raise OlmGroupSessionError).
Proof.
  intros Hon Hfile Hrow Hacc Hsessions Hrows Hpre Hbad.
  rewrite (from_session_dir_reads w _ _ _ db row rest) by done.
  erewrite try_except_passed; [done| |done].
  run_step. rewrite Hacc. simpl.
  edestruct (fold_each_accepted
               (λ r, from_cell (Session_from_pickle P) r.2) _ _
               (load_session_parses)) as [sessions ->].
  { apply Forall_map. eapply Forall_impl; [exact Hsessions|]. done. }
  rewrite Hrows, map_app. cbn [map].
  erewrite (fold_each_rejected
              (λ r, from_cell (InboundGroupSession_from_pickle P) r.2) _ _
              (load_inbound_group_session_parses));
    [done| |exact Hbad].
  apply Forall_map. eapply Forall_impl; [exact Hpre|]. done.
Qed.

(** What is right in C8: a load that returns a manager has had every
    pickle accepted. *)
Lemma from_session_dir_loaded_all w w' user device_id session_path db row
    rest o :
  files w !! db_path user device_id session_path = Some db →
  filter (λ row, row.1 = user) (tbl_olmaccount db) = row :: rest →
  from_session_dir P user device_id session_path w = (w', Ok (Some o)) →
  (∃ account, from_cell (Account_from_pickle P) row.2 = Ok account)
  ∧ Forall (λ row, ∃ session,
              from_cell (Session_from_pickle P) row.2 = Ok session)
      (tbl_olmsessions db)
  ∧ Forall (λ row, ∃ session,
              from_cell (InboundGroupSession_from_pickle P) row.2 = Ok session)
      (tbl_inbound_group_sessions db).
Proof.
  intros Hfile Hrow Hload.
  destruct (ENCRYPTION w) eqn:Hon.
  2: { by rewrite (proj1 (gated_constructors_off P w Hon)) in Hload. }
  rewrite (from_session_dir_reads w _ _ _ db row rest) in Hload by done.
  unfold try_except in Hload. revert Hload. run_step.
  destruct (from_cell (Account_from_pickle P) row.2) as [account|e]; simpl.
  2: { by destruct (exn_eqb_kind e OlmAccountError || _). }
  destruct (fold_each _ ∅ (load_session P) w) as [w1 [sessions|e]] eqn:Hs;
    simpl.
  2: { by destruct (exn_eqb_kind e OlmAccountError || _). }
  apply (fold_each_ok_inv (λ r, from_cell (Session_from_pickle P) r.2) _ _
           (load_session_parses)) in Hs as [-> Hs].
  destruct (fold_each _ ∅ (load_inbound_group_session P) w)
    as [w2 [groups|e]] eqn:Hg; simpl.
  2: { by destruct (exn_eqb_kind e OlmAccountError || _). }
  apply (fold_each_ok_inv
           (λ r, from_cell (InboundGroupSession_from_pickle P) r.2) _ _
           (load_inbound_group_session_parses)) in Hg as [-> Hg].
  intros _. split_and!; [by eexists| |].
  - exact (proj1 (Forall_map _ _ _) Hs).
  - exact (proj1 (Forall_map _ _ _) Hg).
Qed.
End Loading.

(** * The manager at work on the small provider *)

Section Runs.
Import Toy.

(** C2 as stated fails: [@alice]'s session [B] decrypts a message and
    moves on to [B+], the plaintext is returned, and the row of [B] in
    the store still holds the pickle from before. *)
Lemma decrypt_leaves_stale_pickle :
  store_reflects alice "@alice"
  ∧ ∃ st',
      decrypt provider "@alice" "KEY" (OlmMessage "B|hello") alice
      = (st', Ok (Some "hello"))
      ∧ sessions (self st') !! "@alice" = Some ["A"; "B+"]
      ∧ tbl_olmsessions (store st')
        = [("@alice", "A", Str "A"); ("@alice", "B", Str "B")]
      ∧ ¬ store_reflects st' "@alice".
Proof.
  split.
  - intros session Hin. vm_compute in Hin.
    apply list_elem_of_In in Hin. simpl in Hin.
    destruct Hin as [<-|[<-|[]]]; eexists; (split; [reflexivity|]);
      vm_compute; apply list_elem_of_In; simpl; tauto.
  - eexists. split; [reflexivity|]. split; [reflexivity|].
    split; [reflexivity|].
    intros Hreflects. destruct (Hreflects "B+") as (pickle & Hpickle & Hrow).
    + vm_compute. apply list_elem_of_In. simpl. tauto.
    + vm_compute in Hpickle. injection Hpickle as <-.
      vm_compute in Hrow. apply list_elem_of_In in Hrow. simpl in Hrow.
      destruct Hrow as [Hrow|[Hrow|[]]]; discriminate.
Qed.


(** C6 fails on the code: with the gate off, [group_decrypt] is the
    no-op the gate promises, but [create_group_session] and [sign_json]
    carry no wrapper.  The first prints its notice, registers the
    session and inserts its row, and where the gate is off for want of
    python-olm it prints and raises [NameError]; the second returns a
    signature. *)
Theorem create_group_session_ignores_gate :
  ENCRYPTION (world gate_off) = false
  ∧ group_decrypt provider "!room" "G" "G|hi" gate_off = (gate_off, Ok None)
  ∧ (∃ st',
       create_group_session provider "!room" "G" "G" gate_off = (st', Ok tt)
       ∧ printed (world st')
         = [("", "matrix: Creating group session for !room")]
       ∧ inbound_group_sessions (self st') !! "!room" = Some {[ "G" := "G" ]}
       ∧ tbl_inbound_group_sessions (store st')
         = [("!room", "G", Str "G")])
  ∧ sign_json provider dumps "{}" gate_off = (gate_off, Ok "account:{}")
  ∧ ENCRYPTION (world bare) = false
  ∧ ∃ st',
      create_group_session unimported "!room" "G" "G" bare
      = (st', Raise NameError)
      ∧ printed (world st')
        = [("", "matrix: Creating group session for !room")].
Proof.
  split; [reflexivity|]. split; [reflexivity|]. split; [|split; [reflexivity|]].
  - eexists. split; [reflexivity|]. split; [reflexivity|].
    split; vm_compute; reflexivity.
  - split; [reflexivity|]. eexists. split; reflexivity.
Qed.

(** C7 fails on the code: a group session is provisioned, decrypts once
    and moves on to [G+]; the manager is saved and loaded again; the
    loaded registry holds the session as it was provisioned, [G]. *)
Theorem save_drops_group_ratchet :
  ∃ st1 st2 st3 w o,
    create_group_session provider "!room" "G" "G" fresh = (st1, Ok tt)
    ∧ group_decrypt provider "!room" "G" "G|hi" st1 = (st2, Ok (Some "hi"))
    ∧ to_session_dir provider st2 = (st3, Ok None)
    ∧ from_session_dir provider "@me" "DEV" "/tmp" (world st3)
      = (w, Ok (Some o))
    ∧ inbound_group_sessions (self st3) !! "!room" = Some {[ "G" := "G+" ]}
    ∧ inbound_group_sessions o !! "!room" = Some {[ "G" := "G" ]}.
Proof.
  eexists _, _, _, _, _.
  split; [reflexivity|]. split; [reflexivity|]. split; [reflexivity|].
  split; [vm_compute; reflexivity|].
  split; vm_compute; reflexivity.
Qed.

(** C8 fails on the code: the load of a store whose group-session row
    has a rejected pickle raises [OlmGroupSessionError] itself, where a
    rejected pairwise-session pickle raises [EncryptionError]. *)
Theorem load_bad_group_pickle :
  from_session_dir provider "@me" "DEV" "/tmp" (on_disk db_bad_group)
  = (on_disk db_bad_group, Raise OlmGroupSessionError)
  ∧ from_session_dir provider "@me" "DEV" "/tmp" (on_disk db_bad_session)
    = (on_disk db_bad_session, Raise (EncryptionError OlmSessionError)).
Proof. split; vm_compute; reflexivity. Qed.

(** ** The general statements at work *)

(** Of [@alice]'s two sessions only [B], the second created, decrypts
    the message, which is not a pre-key message. *)
Lemma decrypt_first_success_witness :
  ∃ st',
    decrypt provider "@alice" "KEY" (OlmMessage "B|hello") alice
    = (st', Ok (Some "hello"))
    ∧ sessions (self st') !! "@alice" = Some ["A"; "B+"].
Proof.
  apply (decrypt_first_success provider alice "@alice" "KEY"
           (OlmMessage "B|hello") ["A"] ["A"] "B" "B+" [] "hello").
  - reflexivity.
  - reflexivity.
  - constructor; [|constructor].
    apply declines_decrypt_raises; [discriminate|reflexivity].
  - split; [discriminate|reflexivity].
Defined.

Lemma decrypt_existing_keeps_store_witness :
  ∃ st',
    decrypt provider "@alice" "KEY" (OlmMessage "B|hello") alice
    = (st', Ok (Some "hello"))
    ∧ sessions (self st') !! "@alice" = Some ["A"; "B+"]
    ∧ world st' = world alice
    ∧ store st' = store alice.
Proof.
  apply (decrypt_existing_keeps_store provider alice "@alice" "KEY"
           (OlmMessage "B|hello") ["A"] ["A"] "B" "B+" [] "hello").
  - reflexivity.
  - reflexivity.
  - constructor; [|constructor].
    apply declines_decrypt_raises; [discriminate|reflexivity].
  - split; [discriminate|reflexivity].
Defined.

Lemma decrypt_first_contact_witness :
  ∃ st' outcome,
    decrypt provider "@bob" "KEY" (OlmPreKeyMessage "C|hello") Cases.shared
    = (st', outcome)
    ∧ sessions (self st') = {[ "@bob" := ["C+"] ]}
    ∧ account (self st') = "account-"
    ∧ tbl_olmsessions (store st')
      = [("@alice", "A", Str "A"); ("@bob", "C", Str "C")]
    ∧ tbl_olmaccount (store st')
      = [("@me", Str "account-"); ("@you", Str "theirs")]
    ∧ (∀ row, row ∈ tbl_olmaccount (store st') →
         row.1 = "@me" → row.2 = Str "account-")
    ∧ (∀ old, ("@me", old) ∈ tbl_olmaccount (store Cases.shared) →
         ("@me", Str "account-") ∈ tbl_olmaccount (store st'))
    ∧ tbl_inbound_group_sessions (store st') = [("!room", "G", Str "G")]
    ∧ (∀ plaintext, Ok "hello" = Ok plaintext →
         outcome = Ok (Some plaintext))
    ∧ (Ok "hello" = Raise OlmSessionError → outcome = Ok None).
Proof.
  apply (decrypt_first_contact provider Cases.shared "@bob" "KEY"
           (OlmPreKeyMessage "C|hello") "C" (Str "C") "account-"
           (Str "account-") "C+" (Ok "hello")); reflexivity.
Defined.


Lemma group_decrypt_lookup_witness :
  ∃ st1 st2,
    create_group_session provider "!room" "G" "G" fresh = (st1, Ok tt)
    ∧ group_decrypt provider "!room" "G" "G|hi" st1 = (st2, Ok (Some "hi")).
Proof.
  destruct (group_decrypt_lookup provider fresh "!room" "G" "G|hi" eq_refl)
    as (_ & _ & _ & Hprovisioned).
  exact (Hprovisioned "G" "G" (Str "G") "G+" "hi" eq_refl eq_refl eq_refl).
Defined.

Lemma group_decrypt_unprovisioned_room_witness :
  group_decrypt provider "!room" "G" "G|hi" fresh
  = (with_groups fresh (<["!room" := ∅]> ∅), Ok None).
Proof.
  exact (proj1 (group_decrypt_unprovisioned_room provider fresh "!room" "G"
                  "G|hi" eq_refl)).
Defined.
End Runs.

(** * More on the key formatter *)

Section GrouperMore.
Context {A : Type}.
Implicit Types (it : list A) (fill : A).

(** X1: [grouper] cuts any input into tuples of exactly [n], in order, the
    last one filled up with fewer than [n] copies of [fill]; there are as
    many tuples as [n] goes into the length, rounded up.  No input gives
    no tuple, and so does [n = 0]. *)
Theorem grouper_chunks it (n : nat) fill :
  grouper it 0 fill = []
  ∧ grouper [] n fill = []
  ∧ (0 < n →
     ∃ pad, pad < n
       ∧ concat (grouper it n fill) = it ++ replicate pad fill
       ∧ Forall (λ g, length g = n) (grouper it n fill)
       ∧ n * length (grouper it n fill) = length it + pad
       ∧ length (grouper it n fill) = (length it + n - 1) / n).
Proof.
  split; [done|]. split; [by destruct n|].
  intros Hn. destruct (grouper_groups it n fill Hn) as (pad & Hpad & Hcat & Hall).
  exists pad. split_and!; try done.
  - rewrite <- (length_concat_uniform n _ Hall), Hcat.
    by rewrite length_app, length_replicate.
  - assert (Hcount : n * length (grouper it n fill) = length it + pad).
    { rewrite <- (length_concat_uniform n _ Hall), Hcat.
      by rewrite length_app, length_replicate. }
    apply Nat.div_unique with (r := n - 1 - pad); lia.
Qed.
End GrouperMore.

Lemma list_ascii_of_string_app (a b : string) :
  list_ascii_of_string (a +:+ b)
  = list_ascii_of_string a ++ list_ascii_of_string b.
Proof.
  induction a as [|c a IH]; [done|].
  change (c :: list_ascii_of_string (a +:+ b)
          = c :: list_ascii_of_string a ++ list_ascii_of_string b).
  by rewrite IH.
Qed.

Lemma length_append (a b : string) :
  String.length (a +:+ b) = String.length a + String.length b.
Proof.
  rewrite <- !length_list_ascii_of_string, list_ascii_of_string_app.
  apply length_app.
Qed.

(** The characters of a join, the separators taken out. *)
Lemma filter_concat_sep (P : ascii → Prop) `{!∀ c, Decision (P c)}
    (sep : string) (gs : list string) :
  Forall (λ c, ¬ P c) (list_ascii_of_string sep) →
  filter P (list_ascii_of_string (String.concat sep gs))
  = filter P (list_ascii_of_string (String.concat "" gs)).
Proof.
  intros Hsep. induction gs as [|g gs IH]; [done|].
  destruct gs as [|g' gs]; [done|].
  change (String.concat sep (g :: g' :: gs))
    with (g +:+ sep +:+ String.concat sep (g' :: gs)).
  change (String.concat "" (g :: g' :: gs))
    with (g +:+ "" +:+ String.concat "" (g' :: gs)).
  rewrite !list_ascii_of_string_app, !filter_app, IH. simpl.
  f_equal. f_equal.
  clear -Hsep. induction Hsep as [|c l Hc _ IHl]; [done|].
  by rewrite filter_cons_False.
Qed.

Lemma filter_id {A} (P : A → Prop) `{!∀ x, Decision (P x)} (l : list A) :
  Forall P l → filter P l = l.
Proof.
  induction 1 as [|x l Hx _ IH]; [done|].
  by rewrite filter_cons_True, IH.
Qed.

(** The groups [partition_key] joins, set end to end: the key and its
    padding. *)
Lemma partition_key_chars (key : string) :
  ∃ pad, pad < 4
    ∧ String.concat ""
        (map string_of_list_ascii
           (grouper (list_ascii_of_string key) 4 " "%char))
      = key +:+ spaces pad
    ∧ 4 * length (grouper (list_ascii_of_string key) 4 " "%char)
      = String.length key + pad.
Proof.
  destruct (grouper_groups (list_ascii_of_string key) 4 " "%char)
    as (pad & Hpad & Hcat & Hall); [lia|].
  exists pad. split_and!; [done| |].
  - rewrite concat_empty_sep, Hcat, string_of_list_ascii_app.
    by rewrite string_of_list_ascii_of_string.
  - rewrite <- (length_concat_uniform 4 _ Hall), Hcat.
    by rewrite length_app, length_replicate, length_list_ascii_of_string.
Qed.

(** X2: the display of a key that has no space in it gives the key back
    when its spaces are taken out. *)
Theorem partition_key_strip (key : string) :
  " "%char ∉ list_ascii_of_string key →
  strip_spaces (partition_key key) = key.
Proof.
  intros Hkey. destruct (partition_key_chars key) as (pad & _ & Hcat & _).
  unfold strip_spaces, partition_key.
  rewrite filter_concat_sep.
  2: { repeat constructor. by intros []. }
  rewrite Hcat, list_ascii_of_string_app, filter_app.
  assert (filter (λ c, c ≠ " "%char) (list_ascii_of_string (spaces pad)) = [])
    as ->.
  { unfold spaces. rewrite list_ascii_of_string_of_list_ascii.
    clear. induction pad as [|pad IH]; [done|].
    change (replicate (S pad) " "%char)
      with (" "%char :: replicate pad " "%char).
    rewrite filter_cons_False; [done|]. intros H. by apply H. }
  rewrite app_nil_r, filter_id.
  - apply string_of_list_ascii_of_string.
  - apply Forall_forall. intros c Hc ->. by apply Hkey.
Qed.

Lemma length_concat_sep (sep : string) (gs : list string) (n : nat) :
  Forall (λ g, String.length g = n) gs →
  String.length (String.concat sep gs)
  = length gs * n + (length gs - 1) * String.length sep.
Proof.
  induction 1 as [|g gs Hg Hall IH]; [done|].
  destruct gs as [|g' gs]; [simpl in *; lia|].
  change (String.concat sep (g :: g' :: gs))
    with (g +:+ sep +:+ String.concat sep (g' :: gs)).
  rewrite !length_append, IH, Hg. simpl. lia.
Qed.

(** X3: the display of a key of [n] characters has one group of four for
    every four characters begun, and a space between groups. *)
Theorem partition_key_length (key : string) :
  String.length (partition_key key)
  = 5 * ((String.length key + 3) / 4) - 1.
Proof.
  destruct (grouper_groups (list_ascii_of_string key) 4 " "%char)
    as (pad & Hpad & Hcat & Hall); [lia|].
  destruct (partition_key_chars key) as (pad' & Hpad' & _ & Hcount).
  unfold partition_key.
  rewrite (length_concat_sep _ _ 4).
  2: { apply Forall_map. eapply Forall_impl; [exact Hall|].
       intros g Hg. simpl. by rewrite length_string_of_list_ascii. }
  rewrite length_map. change (String.length " ") with 1.
  set (k := length (grouper (list_ascii_of_string key) 4 " "%char)) in *.
  replace ((String.length key + 3) / 4) with k
    by (apply Nat.div_unique with (r := 3 - pad'); lia).
  lia.
Qed.

(** * Command arguments *)

Lemma append_assoc (a b c : string) : (a +:+ b) +:+ c = a +:+ (b +:+ c).
Proof.
  induction a as [|x a IH]; [done|].
  change (String x ((a +:+ b) +:+ c) = String x (a +:+ (b +:+ c))).
  by rewrite IH.
Qed.

Lemma append_not_empty (a : string) (c : ascii) : a +:+ String c "" ≠ "".
Proof. by destruct a. Qed.

Lemma split_from_cons_space (word : string) (c : ascii) (s : string) :
  isspace c = true → word ≠ "" →
  split_from word (String c s) = word :: split_from "" s.
Proof. intros Hc Hw. simpl. rewrite Hc. by destruct word. Qed.

Lemma split_from_cons_char (word : string) (c : ascii) (s : string) :
  isspace c = false →
  split_from word (String c s) = split_from (word +:+ String c "") s.
Proof. intros Hc. simpl. by rewrite Hc. Qed.

(** Reading on through characters that are not whitespace. *)
Lemma split_from_word (word w rest : string) :
  Forall (λ c, isspace c = false) (list_ascii_of_string w) →
  split_from word (w +:+ rest) = split_from (word +:+ w) rest.
Proof.
  revert word. induction w as [|c w IH]; intros word Hw.
  - by rewrite append_empty_r.
  - apply Forall_cons in Hw as [Hc Hw].
    change (String c w +:+ rest) with (String c (w +:+ rest)).
    rewrite split_from_cons_char by done. rewrite IH by done.
    by rewrite append_assoc.
Qed.

(** Whitespace before a word is passed over. *)
Lemma split_from_blank (b rest : string) :
  blank b → split_from "" (b +:+ rest) = split_from "" rest.
Proof.
  induction b as [|c b IH]; intros Hb; [done|].
  apply Forall_cons in Hb as [Hc Hb].
  change (String c b +:+ rest) with (String c (b +:+ rest)).
  simpl. rewrite Hc. by apply IH.
Qed.

Lemma split_from_words (word s : string) :
  Forall (λ c, isspace c = false) (list_ascii_of_string word) →
  Forall is_word (split_from word s).
Proof.
  revert word. induction s as [|c s IH]; intros word Hword.
  - simpl. destruct word as [|x word]; constructor; [by split|constructor].
  - simpl. destruct (isspace c) eqn:Hc.
    + destruct word as [|x word].
      * apply IH. constructor.
      * constructor; [by split|]. apply IH. constructor.
    + apply IH. rewrite list_ascii_of_string_app. apply Forall_app.
      split; [done|]. by repeat constructor.
Qed.

(** The words joined by single spaces, read back. *)
Lemma split_from_join (w : string) (ws : list string) (trail : string) :
  is_word w → Forall is_word ws → blank trail →
  split_from "" (String.concat " " (w :: ws) +:+ trail) = w :: ws.
Proof.
  intros Hw Hws Htrail. revert w Hw.
  induction Hws as [|w' ws Hw' _ IH]; intros w [Hne Hw].
  - simpl. rewrite split_from_word by done. simpl.
    destruct trail as [|c trail].
    + simpl. by destruct w.
    + apply Forall_cons in Htrail as [Hc Htrail].
      rewrite split_from_cons_space by done. f_equal.
      rewrite <- (append_empty_r trail). by apply split_from_blank.
  - change (String.concat " " (w :: w' :: ws))
      with (w +:+ " " +:+ String.concat " " (w' :: ws)).
    rewrite !append_assoc. rewrite split_from_word by done.
    change (" " +:+ String.concat " " (w' :: ws) +:+ trail)
      with (String " " (String.concat " " (w' :: ws) +:+ trail)).
    rewrite split_from_cons_space by done. f_equal. by apply IH.
Qed.

(** X4: without a word in the arguments the command is [info], with no
    arguments. *)
Theorem olm_cmd_parse_args_blank (args : string) :
  blank args → olm_cmd_parse_args args = ("info", []).
Proof.
  intros Hb. unfold olm_cmd_parse_args, str_split.
  rewrite <- (append_empty_r args). by rewrite split_from_blank.
Qed.

(** X5: the command is never empty, and neither it nor any argument has
    whitespace in it. *)
Theorem olm_cmd_parse_args_words (args : string) :
  is_word (olm_cmd_parse_args args).1
  ∧ Forall is_word (olm_cmd_parse_args args).2.
Proof.
  unfold olm_cmd_parse_args, str_split.
  assert (Hwords : Forall is_word (split_from "" args))
    by (apply split_from_words; constructor).
  destruct (split_from "" args) as [|command rest]; simpl.
  - split; [|constructor]. split; [done|]. by repeat constructor.
  - by apply Forall_cons in Hwords.
Qed.

(** X6: a command and its arguments written out with single spaces
    between them, whitespace before and after or not, are read back as
    they were. *)
Theorem olm_cmd_parse_args_join (command : string) (rest : list string)
    (lead trail : string) :
  is_word command → Forall is_word rest → blank lead → blank trail →
  olm_cmd_parse_args
    (lead +:+ String.concat " " (command :: rest) +:+ trail)
  = (command, rest).
Proof.
  intros Hc Hrest Hlead Htrail. unfold olm_cmd_parse_args, str_split.
  rewrite split_from_blank by done. by rewrite split_from_join.
Qed.

(** * More on loading *)

Section FoldEachValue.
Context {S A B C : Type}.
Context (parse : A → result C) (step : B → A → C → B).
Context (body : B → A → M S B).
Hypothesis body_parses : ∀ acc x s,
  body acc x s = (s, match parse x with
                     | Ok c => Ok (step acc x c)
                     | Raise e => Raise e
                     end).

Lemma fold_each_parse xs acc s :
  fold_each xs acc body s = (s, parse_fold parse step xs acc).
Proof.
  revert acc. induction xs as [|x xs IH]; intros acc; simpl; [done|].
  unfold mbind, M_bind, bind. rewrite body_parses.
  destruct (parse x) as [c|e]; [apply IH|done].
Qed.
End FoldEachValue.

Lemma parse_fold_app {A B C} (parse : A → result C) (step : B → A → C → B)
    (xs ys : list A) (acc : B) :
  parse_fold parse step (xs ++ ys) acc
  = match parse_fold parse step xs acc with
    | Ok acc' => parse_fold parse step ys acc'
    | Raise e => Raise e
    end.
Proof.
  revert acc. induction xs as [|x xs IH]; intros acc; simpl; [done|].
  destruct (parse x); [apply IH|done].
Qed.

Section LoadingMore.
Context (P : Provider).
Implicit Types (w : World) (db : Database).

(** On a file that has its tables and an account row, [from_session_dir]
    leaves the world as it is, and its outcome is read off the rows. *)
Lemma from_session_dir_run w u dev dir db row rest :
  ENCRYPTION w = true →
  files w !! db_path u dev dir = Some db →
  filter (λ row, row.1 = u) (tbl_olmaccount db) = row :: rest →
  from_session_dir P u dev dir w
  = (w,
     match from_cell (Account_from_pickle P) row.2 with
     | Raise e => Raise (if caught_by [OlmAccountError; OlmSessionError] e
                         then EncryptionError e else e)
     | Ok a =>
         match sessions_of_rows P (tbl_olmsessions db) with
         | Raise e => Raise (if caught_by [OlmAccountError; OlmSessionError] e
                             then EncryptionError e else e)
         | Ok ss =>
             match groups_of_rows P (tbl_inbound_group_sessions db) with
             | Raise e =>
                 Raise (if caught_by [OlmAccountError; OlmSessionError] e
                        then EncryptionError e else e)
             | Ok gs =>
                 Ok (Some (Build_Olm P u dev dir (db_path u dev dir) ∅ a ss gs))
             end
         end
     end).
Proof.
  intros Hon Hfile Hrow.
  rewrite (from_session_dir_reads P w _ _ _ db row rest) by done.
  unfold try_except, mbind, M_bind, bind, lift_result.
  destruct (from_cell (Account_from_pickle P) row.2) as [a|e]; simpl.
  2: { by destruct (exn_eqb_kind e OlmAccountError || _). }
  rewrite (fold_each_parse (λ r, from_cell (Session_from_pickle P) r.2) _ _
             (load_session_parses P)).
  fold (sessions_of_rows P (tbl_olmsessions db)).
  destruct (sessions_of_rows P (tbl_olmsessions db)) as [ss|e]; simpl.
  2: { by destruct (exn_eqb_kind e OlmAccountError || _). }
  rewrite (fold_each_parse
             (λ r, from_cell (InboundGroupSession_from_pickle P) r.2) _ _
             (load_inbound_group_session_parses P)).
  fold (groups_of_rows P (tbl_inbound_group_sessions db)).
  destruct (groups_of_rows P (tbl_inbound_group_sessions db)) as [gs|e]; simpl.
  2: { by destruct (exn_eqb_kind e OlmAccountError || _). }
  unfold Olm_init. rewrite encrypt_enabled_on by done. done.
Qed.

(** What a load that returns a manager has read. *)
Lemma from_session_dir_ok_inv w w' u dev dir db row rest o :
  files w !! db_path u dev dir = Some db →
  filter (λ row, row.1 = u) (tbl_olmaccount db) = row :: rest →
  from_session_dir P u dev dir w = (w', Ok (Some o)) →
  w' = w
  ∧ from_cell (Account_from_pickle P) row.2 = Ok (account o)
  ∧ sessions_of_rows P (tbl_olmsessions db) = Ok (sessions o)
  ∧ groups_of_rows P (tbl_inbound_group_sessions db)
    = Ok (inbound_group_sessions o)
  ∧ user o = u ∧ device_id o = dev ∧ session_path o = dir
  ∧ database o = db_path u dev dir.
Proof.
  intros Hfile Hrow Hload.
  destruct (ENCRYPTION w) eqn:Hon.
  2: { by rewrite (proj1 (gated_constructors_off P w Hon)) in Hload. }
  rewrite (from_session_dir_run w u dev dir db row rest) in Hload by done.
  destruct (from_cell (Account_from_pickle P) row.2) as [a|e]; [|done].
  destruct (sessions_of_rows P (tbl_olmsessions db)) as [ss|e]; [|done].
  destruct (groups_of_rows P (tbl_inbound_group_sessions db)) as [gs|e];
    [|done].
  by injection Hload as <- <-.
Qed.

(** A load where there is no file, but the directory for one. *)
Lemma from_session_dir_missing_file w u dev dir :
  ENCRYPTION w = true →
  files w !! db_path u dev dir = None →
  has_directory w (db_path u dev dir) = true →
  from_session_dir P u dev dir w
  = (set_files (<[db_path u dev dir := empty_db]>) w, Raise TypeError).
Proof.
  intros Hon Hfile Hdir. unfold from_session_dir.
  rewrite encrypt_enabled_on by done.
  unfold sqlite3_connect, _check_db_tables, execute. run_step.
  rewrite Hfile, Hdir. simpl. rewrite Hfile. simpl.
  unfold db_of. simpl. by rewrite lookup_insert_eq.
Qed.

(** A load where there is neither. *)
Lemma from_session_dir_missing_directory w u dev dir :
  ENCRYPTION w = true →
  files w !! db_path u dev dir = None →
  has_directory w (db_path u dev dir) = false →
  from_session_dir P u dev dir w = (w, Raise OperationalError).
Proof.
  intros Hon Hfile Hdir. unfold from_session_dir.
  rewrite encrypt_enabled_on by done.
  unfold sqlite3_connect. run_step. by rewrite Hfile, Hdir.
Qed.

(** A load that returns a manager has found a file. *)
Lemma from_session_dir_ok_file w w' u dev dir o :
  from_session_dir P u dev dir w = (w', Ok (Some o)) →
  is_Some (files w !! db_path u dev dir).
Proof.
  intros Hload. destruct (ENCRYPTION w) eqn:Hon.
  2: { by rewrite (proj1 (gated_constructors_off P w Hon)) in Hload. }
  destruct (files w !! db_path u dev dir) as [db|] eqn:Hfile; [done|].
  destruct (has_directory w (db_path u dev dir)) eqn:Hdir.
  - by rewrite from_session_dir_missing_file in Hload.
  - by rewrite from_session_dir_missing_directory in Hload.
Qed.

(** A load where the user has no account row. *)
Lemma from_session_dir_missing_row w u dev dir db :
  ENCRYPTION w = true →
  files w !! db_path u dev dir = Some db →
  filter (λ row, row.1 = u) (tbl_olmaccount db) = [] →
  from_session_dir P u dev dir w = (w, Raise TypeError).
Proof.
  intros Hon Hfile Hrow. unfold from_session_dir.
  rewrite encrypt_enabled_on by done.
  unfold sqlite3_connect, _check_db_tables. run_step. rewrite Hfile. simpl.
  rewrite Hfile. simpl. unfold db_of. rewrite Hfile. simpl. by rewrite Hrow.
Qed.

(** X16: where nothing was ever saved, a load does not come back with a new
    manager.  Where the directory is there, it raises [TypeError], and
    an empty database is left at the path, which a second load finds
    without its account row.  Where the directory is missing,
    [sqlite3.connect] raises [OperationalError] and nothing is left
    behind. *)
Theorem from_session_dir_no_store w u dev dir :
  ENCRYPTION w = true →
  files w !! db_path u dev dir = None →
  if has_directory w (db_path u dev dir)
  then ∃ w1,
         from_session_dir P u dev dir w = (w1, Raise TypeError)
         ∧ files w1 = <[db_path u dev dir := empty_db]> (files w)
         ∧ from_session_dir P u dev dir w1 = (w1, Raise TypeError)
  else from_session_dir P u dev dir w = (w, Raise OperationalError).
Proof.
  intros Hon Hfile.
  destruct (has_directory w (db_path u dev dir)) eqn:Hdir.
  - eexists. split_and!.
    + by apply from_session_dir_missing_file.
    + done.
    + apply (from_session_dir_missing_row _ _ _ _ empty_db); [done| |done].
      simpl. by rewrite lookup_insert_eq.
  - by apply from_session_dir_missing_directory.
Qed.


(** X18: an account pickle the provider rejects with its account error ends
    the load with [EncryptionError] around that error, the world
    unchanged. *)
Theorem from_session_dir_account_rejected w u dev dir db row rest :
  ENCRYPTION w = true →
  files w !! db_path u dev dir = Some db →
  filter (λ row, row.1 = u) (tbl_olmaccount db) = row :: rest →
  from_cell (Account_from_pickle P) row.2 = Raise OlmAccountError →
  from_session_dir P u dev dir w
  = (w, Raise (EncryptionError OlmAccountError)).
Proof.
  intros Hon Hfile Hrow Hacc.
  rewrite (from_session_dir_run w u dev dir db row rest) by done.
  by rewrite Hacc.
Qed.

(** X19: a load never drops a row it cannot read: when it returns a
    manager, the provider has accepted the account pickle and the pickle
    of every row of both session tables. *)
Theorem from_session_dir_no_silent_drop w w' u dev dir db row rest o :
  files w !! db_path u dev dir = Some db →
  filter (λ row, row.1 = u) (tbl_olmaccount db) = row :: rest →
  from_session_dir P u dev dir w = (w', Ok (Some o)) →
  from_cell (Account_from_pickle P) row.2 = Ok (account o)
  ∧ Forall (λ row, ∃ session,
              from_cell (Session_from_pickle P) row.2 = Ok session)
      (tbl_olmsessions db)
  ∧ Forall (λ row, ∃ session,
              from_cell (InboundGroupSession_from_pickle P) row.2
              = Ok session)
      (tbl_inbound_group_sessions db).
Proof.
  intros Hfile Hrow Hload.
  destruct (from_session_dir_loaded_all P _ _ _ _ _ _ _ _ _ Hfile Hrow Hload)
    as (_ & Hsessions & Hgroups).
  destruct (from_session_dir_ok_inv _ _ _ _ _ _ _ _ _ Hfile Hrow Hload)
    as (_ & Hacc & _).
  by split_and!.
Qed.


Lemma sessions_of_rows_grouped rows
    (acc m : gmap string (list (Session P))) sender :
  parse_fold (λ r : string * Pickle, from_cell (Session_from_pickle P) r.2)
    (λ sessions db_session session,
       <[db_session.1 :=
           default [] (sessions !! db_session.1) ++ [session]]> sessions)
    (map (λ row : string * string * Pickle, (row.1.1, row.2)) rows) acc
  = Ok m →
  ∃ loaded,
    default [] (m !! sender) = default [] (acc !! sender) ++ loaded
    ∧ Forall2 (λ row session,
                 from_cell (Session_from_pickle P) row.2 = Ok session)
        (filter (λ row, row.1.1 = sender) rows) loaded.
Proof.
  revert acc. induction rows as [|row rows IH]; intros acc; simpl.
  - intros [= <-]. exists []. by rewrite app_nil_r.
  - destruct (from_cell (Session_from_pickle P) row.2) as [session|e]
      eqn:Hrow; [|done].
    intros (loaded & Hm & Hloaded)%IH.
    destruct (decide (row.1.1 = sender)) as [Heq|Hne].
    + exists (session :: loaded). split.
      * rewrite Hm, Heq, lookup_insert_eq. simpl. by rewrite <- app_assoc.
      * rewrite filter_cons_True by done. by constructor.
    + exists loaded. split.
      * by rewrite Hm, lookup_insert_ne.
      * by rewrite filter_cons_False.
Qed.

(** X21: a loaded manager holds, for every sender, the sessions of that
    sender's rows in the order the rows have in the table. *)
Theorem from_session_dir_sessions_in_row_order w w' u dev dir db row rest o
    sender :
  files w !! db_path u dev dir = Some db →
  filter (λ row, row.1 = u) (tbl_olmaccount db) = row :: rest →
  from_session_dir P u dev dir w = (w', Ok (Some o)) →
  Forall2 (λ row session,
             from_cell (Session_from_pickle P) row.2 = Ok session)
    (filter (λ row, row.1.1 = sender) (tbl_olmsessions db))
    (default [] (sessions o !! sender)).
Proof.
  intros Hfile Hrow Hload.
  destruct (from_session_dir_ok_inv _ _ _ _ _ _ _ _ _ Hfile Hrow Hload)
    as (_ & _ & Hsessions & _).
  apply (sessions_of_rows_grouped _ _ _ sender) in Hsessions
    as (loaded & Hm & Hloaded).
  rewrite Hm. by rewrite lookup_empty.
Qed.

Lemma groups_of_rows_sound rows
    (acc m : gmap string (gmap string (InboundGroupSession P)))
    room_id session_id session :
  parse_fold (λ r : string * Pickle,
                from_cell (InboundGroupSession_from_pickle P) r.2)
    (λ groups db_session session,
       <[db_session.1 :=
           <[InboundGroupSession_id P session := session]>
             (default ∅ (groups !! db_session.1))]> groups)
    (map (λ row : string * string * Pickle, (row.1.1, row.2)) rows) acc
  = Ok m →
  default ∅ (m !! room_id) !! session_id = Some session →
  default ∅ (acc !! room_id) !! session_id = Some session
  ∨ (InboundGroupSession_id P session = session_id
     ∧ ∃ row, row ∈ rows ∧ row.1.1 = room_id
         ∧ from_cell (InboundGroupSession_from_pickle P) row.2 = Ok session).
Proof.
  revert acc. induction rows as [|row rows IH]; intros acc; simpl.
  - intros [= <-]. by left.
  - destruct (from_cell (InboundGroupSession_from_pickle P) row.2) as [s|e]
      eqn:Hrow; [|done].
    intros Hm Hlook. destruct (IH _ Hm Hlook) as [Hacc|(Hid & r & Hr & Hroom & Hs)].
    + destruct (decide (row.1.1 = room_id)) as [Heq|Hne].
      * rewrite Heq, lookup_insert_eq in Hacc. simpl in Hacc.
        destruct (decide (InboundGroupSession_id P s = session_id))
          as [Hid|Hid].
        -- rewrite Hid, lookup_insert_eq in Hacc. injection Hacc as <-.
           right. split; [done|]. exists row. split_and!; [|done..].
           apply list_elem_of_here.
        -- rewrite lookup_insert_ne in Hacc by done. by left.
      * rewrite lookup_insert_ne in Hacc by done. by left.
    + right. split; [done|]. exists r. split_and!; [|done..].
      by apply list_elem_of_further.
Qed.

Lemma groups_of_rows_untouched rows
    (acc m : gmap string (gmap string (InboundGroupSession P)))
    room_id session_id :
  parse_fold (λ r : string * Pickle,
                from_cell (InboundGroupSession_from_pickle P) r.2)
    (λ groups db_session session,
       <[db_session.1 :=
           <[InboundGroupSession_id P session := session]>
             (default ∅ (groups !! db_session.1))]> groups)
    (map (λ row : string * string * Pickle, (row.1.1, row.2)) rows) acc
  = Ok m →
  Forall (λ row, row.1.1 = room_id →
            ∀ s, from_cell (InboundGroupSession_from_pickle P) row.2 = Ok s →
                 InboundGroupSession_id P s ≠ session_id) rows →
  default ∅ (m !! room_id) !! session_id
  = default ∅ (acc !! room_id) !! session_id.
Proof.
  intros Hm Hrows. revert acc Hm.
  induction Hrows as [|row rows Hrow _ IH]; intros acc; simpl.
  - by intros [= <-].
  - destruct (from_cell (InboundGroupSession_from_pickle P) row.2) as [s|e]
      eqn:Hs; [|done].
    intros Hm. rewrite (IH _ Hm).
    destruct (decide (row.1.1 = room_id)) as [Heq|Hne].
    + rewrite Heq, lookup_insert_eq. simpl.
      rewrite lookup_insert_ne; [done|]. by apply Hrow.
    + by rewrite lookup_insert_ne.
Qed.

(** X22: a loaded manager files every group session under the identifier
    the provider gives it, whatever the [session_id] column of its row
    says, and each one comes from a row of its room. *)
Theorem from_session_dir_groups_by_own_id w w' u dev dir db row rest o
    room_id session_id session :
  files w !! db_path u dev dir = Some db →
  filter (λ row, row.1 = u) (tbl_olmaccount db) = row :: rest →
  from_session_dir P u dev dir w = (w', Ok (Some o)) →
  default ∅ (inbound_group_sessions o !! room_id) !! session_id
  = Some session →
  InboundGroupSession_id P session = session_id
  ∧ ∃ row, row ∈ tbl_inbound_group_sessions db ∧ row.1.1 = room_id
      ∧ from_cell (InboundGroupSession_from_pickle P) row.2 = Ok session.
Proof.
  intros Hfile Hrow Hload Hlook.
  destruct (from_session_dir_ok_inv _ _ _ _ _ _ _ _ _ Hfile Hrow Hload)
    as (_ & _ & _ & Hgroups & _).
  destruct (groups_of_rows_sound _ _ _ _ _ _ Hgroups Hlook) as [Hempty|H];
    [|done].
  by rewrite lookup_empty in Hempty.
Qed.

(** X23: of the rows of a room whose sessions share an identifier, the
    last one in the table is the one a loaded manager holds. *)
Theorem from_session_dir_last_group_row_wins w w' u dev dir db row rest o
    before group_row after session :
  files w !! db_path u dev dir = Some db →
  filter (λ row, row.1 = u) (tbl_olmaccount db) = row :: rest →
  from_session_dir P u dev dir w = (w', Ok (Some o)) →
  tbl_inbound_group_sessions db = before ++ group_row :: after →
  from_cell (InboundGroupSession_from_pickle P) group_row.2 = Ok session →
  Forall (λ row, row.1.1 = group_row.1.1 →
            ∀ s, from_cell (InboundGroupSession_from_pickle P) row.2 = Ok s →
                 InboundGroupSession_id P s
                 ≠ InboundGroupSession_id P session) after →
  default ∅ (inbound_group_sessions o !! group_row.1.1)
    !! InboundGroupSession_id P session
  = Some session.
Proof.
  intros Hfile Hrow Hload Hrows Hsession Hafter.
  destruct (from_session_dir_ok_inv _ _ _ _ _ _ _ _ _ Hfile Hrow Hload)
    as (_ & _ & _ & Hgroups & _).
  unfold groups_of_rows in Hgroups.
  rewrite Hrows, map_app, parse_fold_app in Hgroups.
  destruct (parse_fold _ _ (map _ before) ∅) as [acc|e]; [|done].
  cbn [map parse_fold] in Hgroups. simpl in Hgroups.
  rewrite Hsession in Hgroups.
  rewrite (groups_of_rows_untouched _ _ _ _ _ Hgroups Hafter).
  rewrite lookup_insert_eq. simpl. by rewrite lookup_insert_eq.
Qed.
End LoadingMore.

(** * What the operations leave alone *)

Section Keeps.
Context {S : Type} (I : S → Prop).

Lemma keeps_ret {A} (a : A) : keeps I (mret a : M S A).
Proof. by intros s. Qed.

Lemma keeps_raise {A} (e : exn) : keeps I (raise e : M S A).
Proof. by intros s. Qed.

Lemma keeps_lift_result {A} (r : result A) : keeps I (lift_result r : M S A).
Proof. by intros s. Qed.

Lemma keeps_bind {A B} (m : M S A) (k : A → M S B) :
  keeps I m → (∀ a, keeps I (k a)) → keeps I (m ≫= k).
Proof.
  intros Hm Hk s Hs. unfold mbind, M_bind, bind. specialize (Hm s Hs).
  destruct (m s) as [s' [a|e]]; simpl in *; [by apply Hk|done].
Qed.

(** A statement may use what it has read of the state it runs on. *)
Lemma keeps_get_bind {B} (k : S → M S B) :
  (∀ s, I s → I (k s s).1) → keeps I (get ≫= k).
Proof. intros Hk s Hs. by apply Hk. Qed.

Lemma keeps_try_except {A} (body : M S A) kinds handler :
  keeps I body → (∀ e, keeps I (handler e)) →
  keeps I (try_except body kinds handler).
Proof.
  intros Hbody Hhandler s Hs. unfold try_except. specialize (Hbody s Hs).
  destruct (body s) as [s' [a|e]]; simpl in *; [done|].
  destruct (caught_by kinds e); [by apply Hhandler|done].
Qed.

Lemma keeps_encrypt_enabled {A} `{Gated S} (f : M S (option A)) :
  keeps I f → keeps I (encrypt_enabled f).
Proof.
  intros Hf s Hs. unfold encrypt_enabled. destruct (gate s); [by apply Hf|done].
Qed.

Lemma keeps_for_each {A} (xs : list A) (body : A → M S unit) :
  (∀ x, keeps I (body x)) → keeps I (for_each xs body).
Proof. intros Hbody s Hs. by apply for_each_preserves. Qed.
End Keeps.

Section DecryptFrame.
Context (P : Provider) (sender : string) (s0 : St P).
Implicit Types (s : St P).

Lemma decrypt_frame_refl : decrypt_frame sender s0 s0.
Proof. by split. Qed.

Lemma decrypt_frame_printed s f :
  decrypt_frame sender s0 s →
  decrypt_frame sender s0
    {| world := set_printed f (world s); self := self s |}.
Proof. intros []. by split. Qed.

Lemma decrypt_frame_account s a :
  decrypt_frame sender s0 s →
  decrypt_frame sender s0
    {| world := world s; self := set_account P a (self s) |}.
Proof. intros []. by split. Qed.

Lemma decrypt_frame_sessions s registry :
  decrypt_frame sender s0 s →
  (∀ other, other ≠ sender →
     registry !! other = sessions (self s) !! other) →
  length (default [] (sessions (self s) !! sender))
  ≤ length (default [] (registry !! sender)) →
  decrypt_frame sender s0 (with_sessions s registry).
Proof.
  intros [] Hother Hlen. split; try done; simpl.
  - intros other Hne. rewrite Hother by done. auto.
  - lia.
Qed.

Lemma decrypt_frame_execute s stmt :
  decrypt_frame sender s0 s →
  (∀ db, tbl_inbound_group_sessions (stmt db)
         = tbl_inbound_group_sessions db) →
  (∀ db, tbl_olmsessions db `prefix_of` tbl_olmsessions (stmt db)) →
  (∀ db, map fst (tbl_olmaccount (stmt db)) = map fst (tbl_olmaccount db)) →
  decrypt_frame sender s0
    (in_world P (execute (database (self s)) stmt) s).1.
Proof.
  intros [] Hgroups Hsessions Haccount.
  unfold in_world, execute. run_step.
  split; try done; unfold store, db_of in *; simpl.
  - intros conn Hne. rewrite lookup_insert_ne by congruence. auto.
  - rewrite lookup_insert_eq. simpl. rewrite Hgroups. done.
  - rewrite lookup_insert_eq. simpl. etrans; [done|]. apply Hsessions.
  - rewrite lookup_insert_eq. simpl. rewrite Haccount. done.
Qed.

Lemma keeps_W_prnt buffer message :
  keeps (decrypt_frame sender s0) (in_world P (W_prnt buffer message)).
Proof. intros s Hs. by apply decrypt_frame_printed. Qed.

Lemma keeps_sessions_getitem :
  keeps (decrypt_frame sender s0) (sessions_getitem P sender).
Proof.
  intros s Hs. rewrite sessions_getitem_run. simpl.
  apply decrypt_frame_sessions; [done| |].
  - intros other Hne. by rewrite lookup_insert_ne.
  - by rewrite lookup_insert_eq.
Qed.

Lemma keeps_Session_decrypt_in_place i session message :
  keeps (decrypt_frame sender s0)
    (Session_decrypt_in_place P sender i session message).
Proof.
  intros s Hs. unfold Session_decrypt_in_place, modify_self.
  destruct (Session_decrypt P session message) as [session' r]. run_step.
  apply (decrypt_frame_sessions s); [done| |].
  - intros other Hne. by rewrite lookup_alter_ne.
  - rewrite lookup_alter_eq.
    destruct (sessions (self s) !! sender) as [l|]; simpl; [|done].
    by rewrite length_insert.
Qed.

Lemma keeps_decrypt_attempt message i session :
  keeps (decrypt_frame sender s0) (decrypt_attempt P sender message i session).
Proof.
  apply keeps_try_except; [|intros; apply keeps_ret].
  apply keeps_bind.
  - destruct (is_prekey message); [|apply keeps_ret].
    apply keeps_bind; [apply keeps_lift_result|intros; apply keeps_ret].
  - intros [|]; [apply keeps_ret|].
    apply keeps_bind; [apply keeps_Session_decrypt_in_place|].
    intros; apply keeps_ret.
Qed.

Lemma keeps_decrypt_loop message i todo :
  keeps (decrypt_frame sender s0) (decrypt_loop P sender message i todo).
Proof.
  revert i. induction todo as [|session todo IH]; intros i; simpl.
  - apply keeps_ret.
  - apply keeps_bind; [apply keeps_decrypt_attempt|].
    intros [plaintext|]; [apply keeps_ret|apply IH].
Qed.

Lemma keeps_sessions_append session :
  keeps (decrypt_frame sender s0) (sessions_append P sender session).
Proof.
  intros s Hs. unfold sessions_append.
  erewrite bind_ok by apply sessions_getitem_run.
  unfold modify_self. run_step.
  apply (decrypt_frame_sessions s); [done| |].
  - intros other Hne. by rewrite !lookup_insert_ne.
  - rewrite lookup_insert_eq. simpl. rewrite length_app. lia.
Qed.

Lemma keeps__store_session session :
  keeps (decrypt_frame sender s0) (_store_session P sender session).
Proof.
  apply keeps_get_bind. intros s Hs. run_step.
  destruct (Session_pickle P session) as [pickle|e]; simpl; [|done].
  apply decrypt_frame_execute; try done.
  intros db. simpl. by apply prefix_app_r.
Qed.

Lemma keeps__update_acc_in_db :
  keeps (decrypt_frame sender s0) (_update_acc_in_db P).
Proof.
  apply keeps_get_bind. intros s Hs. run_step.
  destruct (Account_pickle P (account (self s))) as [pickle|e]; simpl; [|done].
  apply decrypt_frame_execute; try done.
  intros db. simpl. rewrite map_map. apply map_ext. intros row. simpl.
  by destruct (decide (row.1 = user (self s))).
Qed.

Lemma keeps__create_session sender_key message :
  keeps (decrypt_frame sender s0) (_create_session P sender sender_key message).
Proof.
  unfold _create_session.
  apply keeps_bind; [apply keeps_W_prnt|intros _].
  apply keeps_get_bind. intros s Hs.
  refine (keeps_bind _ _ _ _ _ s Hs); [apply keeps_lift_result|].
  intros session.
  apply keeps_bind; [apply keeps_W_prnt|intros _].
  apply keeps_bind; [apply keeps_sessions_append|intros i].
  apply keeps_bind; [apply keeps__store_session|intros _].
  apply keeps_get_bind. intros s1 Hs1.
  refine (keeps_bind _ _ _ _ _ s1 Hs1).
  - destruct (Account_remove_one_time_keys P (account (self s1)) session)
      as [account' r].
    apply keeps_bind; [|intros; apply keeps_lift_result].
    intros s2 Hs2. by apply decrypt_frame_account.
  - intros _. apply keeps_bind; [apply keeps__update_acc_in_db|].
    intros; apply keeps_ret.
Qed.

Lemma keeps_decrypt sender_key message :
  keeps (decrypt_frame sender s0) (decrypt P sender sender_key message).
Proof.
  apply keeps_encrypt_enabled.
  apply keeps_bind; [apply keeps_sessions_getitem|intros l].
  apply keeps_bind; [apply keeps_decrypt_loop|].
  intros [plaintext|]; [apply keeps_ret|].
  apply keeps_bind.
  - apply keeps_try_except; [|intros; apply keeps_ret].
    apply keeps_bind; [apply keeps__create_session|intros; apply keeps_ret].
  - intros [[i session]|]; [|apply keeps_ret].
    apply keeps_try_except; [|intros; apply keeps_ret].
    apply keeps_bind; [apply keeps_Session_decrypt_in_place|].
    intros; apply keeps_ret.
Qed.
End DecryptFrame.

Section DecryptFrameTheorems.
Context (P : Provider).
Implicit Types (st : St P).

(** X8: whatever [decrypt] returns or raises, of the manager it changes at
    most the account and the sender's own list, which never gets shorter:
    the other senders' sessions, the group sessions and the remaining
    attributes are as they were. *)
Theorem decrypt_touches_only_sender st sender sender_key message :
  let st' := (decrypt P sender sender_key message st).1 in
  (∀ other, other ≠ sender →
     sessions (self st') !! other = sessions (self st) !! other)
  ∧ length (default [] (sessions (self st) !! sender))
    ≤ length (default [] (sessions (self st') !! sender))
  ∧ inbound_group_sessions (self st') = inbound_group_sessions (self st)
  ∧ device_keys (self st') = device_keys (self st)
  ∧ user (self st') = user (self st)
  ∧ device_id (self st') = device_id (self st)
  ∧ session_path (self st') = session_path (self st)
  ∧ database (self st') = database (self st)
  ∧ ENCRYPTION (world st') = ENCRYPTION (world st).
Proof.
  intros st'.
  destruct (keeps_decrypt P sender st sender_key message st
              (decrypt_frame_refl P sender st)).
  by split_and!.
Qed.

(** X9: whatever [decrypt] returns or raises, it never deletes or rewrites
    a session row (the rows there were are still there, in place, any new
    row after them), never touches a group-session row, never adds or
    removes an account row, and writes to no file but the manager's
    own. *)
Theorem decrypt_store_append_only st sender sender_key message :
  let st' := (decrypt P sender sender_key message st).1 in
  tbl_olmsessions (store st) `prefix_of` tbl_olmsessions (store st')
  ∧ tbl_inbound_group_sessions (store st')
    = tbl_inbound_group_sessions (store st)
  ∧ map fst (tbl_olmaccount (store st')) = map fst (tbl_olmaccount (store st))
  ∧ ∀ conn, conn ≠ database (self st) →
      files (world st') !! conn = files (world st) !! conn.
Proof.
  intros st'.
  destruct (keeps_decrypt P sender st sender_key message st
              (decrypt_frame_refl P sender st)).
  by split_and!.
Qed.
End DecryptFrameTheorems.

(** * More on saving *)

Lemma for_each_ext {S A} (xs : list A) (f g : A → M S unit) s :
  (∀ x s, f x s = g x s) → for_each xs f s = for_each xs g s.
Proof.
  intros Hfg. revert s. induction xs as [|x xs IH]; intros s; simpl; [done|].
  unfold mbind, M_bind, bind. rewrite Hfg.
  destruct (g x s) as [s' [[]|e]]; [apply IH|done].
Qed.

Section ForEachOk.
Context {S A : Type} (Q : S → Prop).

(** A loop whose every pass returns keeps what every pass keeps. *)
Lemma for_each_ok_keeps (xs : list A) (body : A → M S unit) :
  (∀ y s, y ∈ xs → ∃ s', body y s = (s', Ok tt) ∧ (Q s → Q s')) →
  ∀ s, ∃ s', for_each xs body s = (s', Ok tt) ∧ (Q s → Q s').
Proof.
  induction xs as [|x xs IH]; intros Hbody s; simpl; [by eexists|].
  destruct (Hbody x s) as (s1 & Hx & Hq); [apply list_elem_of_here|].
  destruct (IH (λ y s Hy, Hbody y s (list_elem_of_further _ _ _ Hy)) s1)
    as (s2 & Hxs & Hq').
  exists s2. split; [|auto].
  by rewrite (bind_ok _ _ _ _ _ Hx).
Qed.

(** And it ends with what one of its passes brings about, when the
    others keep it. *)
Lemma for_each_reaches (xs : list A) (body : A → M S unit) (x : A) :
  x ∈ xs →
  (∀ y s, y ∈ xs → ∃ s', body y s = (s', Ok tt) ∧ (Q s → Q s')) →
  (∀ s, Q (body x s).1) →
  ∀ s, ∃ s', for_each xs body s = (s', Ok tt) ∧ Q s'.
Proof.
  intros Hx Hbody Hreach. induction xs as [|y xs IH]; intros s.
  { by apply elem_of_nil in Hx. }
  simpl. destruct (Hbody y s) as (s1 & Hy & Hq); [apply list_elem_of_here|].
  rewrite (bind_ok _ _ _ _ _ Hy).
  assert (Hrest : ∀ z s, z ∈ xs →
            ∃ s', body z s = (s', Ok tt) ∧ (Q s → Q s')).
  { intros z s' Hz. apply Hbody. by apply list_elem_of_further. }
  apply elem_of_cons in Hx as [->|Hx].
  - destruct (for_each_ok_keeps xs body Hrest s1) as (s2 & Hxs & Hq').
    exists s2. split; [done|]. apply Hq'.
    specialize (Hreach s). by rewrite Hy in Hreach.
  - by apply IH.
Qed.
End ForEachOk.

Section SaveFrame.
Context (P : Provider) (s0 : St P).
Implicit Types (s : St P).

Lemma save_frame_refl : save_frame s0 s0.
Proof. by split. Qed.

Lemma save_frame_execute s stmt :
  save_frame s0 s →
  (∀ db, tbl_inbound_group_sessions (stmt db)
         = tbl_inbound_group_sessions db) →
  (∀ db, map fst (tbl_olmsessions (stmt db)) = map fst (tbl_olmsessions db)) →
  (∀ db, map fst (tbl_olmaccount (stmt db)) = map fst (tbl_olmaccount db)) →
  save_frame s0 (in_world P (execute (database (self s0)) stmt) s).1.
Proof.
  intros [Hself ? ? ? ? ? ?] Hgroups Hsessions Haccount.
  unfold in_world, execute. run_step.
  split; try done; unfold store, db_of in *; simpl; rewrite ?Hself in *.
  - intros conn Hne. rewrite lookup_insert_ne by congruence. auto.
  - rewrite lookup_insert_eq. simpl. by rewrite Hgroups.
  - rewrite lookup_insert_eq. simpl. by rewrite Hsessions.
  - rewrite lookup_insert_eq. simpl. by rewrite Haccount.
Qed.

Lemma update_olmaccount_keys pickle u db :
  map fst (tbl_olmaccount (sql_update_olmaccount pickle u db))
  = map fst (tbl_olmaccount db).
Proof.
  simpl. rewrite map_map. apply map_ext. intros row. simpl.
  by destruct (decide (row.1 = u)).
Qed.

Lemma update_olmsessions_keys pickle u sid db :
  map fst (tbl_olmsessions (sql_update_olmsessions pickle u sid db))
  = map fst (tbl_olmsessions db).
Proof.
  simpl. rewrite map_map. apply map_ext. intros [[a b] c]. simpl.
  by destruct (decide (a = u ∧ b = sid)).
Qed.

Lemma keeps_save__update_acc_in_db :
  keeps (save_frame s0) (_update_acc_in_db P).
Proof.
  apply keeps_get_bind. intros s Hs.
  refine (keeps_bind _ _ _ _ _ s Hs); [apply keeps_lift_result|].
  intros pickle s1 Hs1. rewrite (save_self _ _ _ Hs).
  apply save_frame_execute; try done. apply update_olmaccount_keys.
Qed.

Lemma keeps_save__update_sessions_in_db :
  keeps (save_frame s0) (_update_sessions_in_db P).
Proof.
  apply keeps_get_bind. intros s Hs. revert s Hs.
  intros s Hs. rewrite (save_self _ _ _ Hs).
  refine (keeps_for_each _ _ _ _ s Hs). intros [u session_list].
  apply keeps_for_each. intros session.
  apply keeps_bind; [apply keeps_lift_result|]. intros pickle s1 Hs1.
  apply save_frame_execute; try done. apply update_olmsessions_keys.
Qed.

Lemma keeps_to_session_dir : keeps (save_frame s0) (to_session_dir P).
Proof.
  apply keeps_encrypt_enabled.
  apply keeps_try_except; [|intros; apply keeps_raise].
  apply keeps_bind; [apply keeps_save__update_acc_in_db|intros _].
  apply keeps_bind; [apply keeps_save__update_sessions_in_db|].
  intros; apply keeps_ret.
Qed.
End SaveFrame.

Section SaveTheorems.
Context (P : Provider).
Implicit Types (st : St P).

(** X24: whatever [to_session_dir] returns or raises, the manager is as it
    was, nothing is printed, no other file is written, and in its own
    file no row is added or removed and no row changes its key: a session
    that has no row gets none. *)
Theorem to_session_dir_only_rewrites_pickles st :
  let st' := (to_session_dir P st).1 in
  self st' = self st
  ∧ printed (world st') = printed (world st)
  ∧ ENCRYPTION (world st') = ENCRYPTION (world st)
  ∧ (∀ conn, conn ≠ database (self st) →
       files (world st') !! conn = files (world st) !! conn)
  ∧ map fst (tbl_olmsessions (store st')) = map fst (tbl_olmsessions (store st))
  ∧ map fst (tbl_olmaccount (store st')) = map fst (tbl_olmaccount (store st))
  ∧ tbl_inbound_group_sessions (store st')
    = tbl_inbound_group_sessions (store st).
Proof.
  intros st'.
  destruct (keeps_to_session_dir P st st (save_frame_refl P st)).
  by split_and!.
Qed.

Lemma _update_acc_in_db_run st pickle :
  Account_pickle P (account (self st)) = Ok pickle →
  _update_acc_in_db P st
  = ({| world :=
          set_files
            (<[database (self st) :=
                 sql_update_olmaccount pickle (user (self st)) (store st)]>)
            (world st);
        self := self st |},
     Ok tt).
Proof.
  intros Hpickle. unfold _update_acc_in_db. run_step. by rewrite Hpickle.
Qed.

(** One pass of the inner loop of [_update_sessions_in_db]. *)
Lemma update_session_row_run conn u session pickle (s : St P) :
  Session_pickle P session = Ok pickle →
  (pickle ← lift_result (Session_pickle P session);
   in_world P (execute conn
                 (sql_update_olmsessions pickle u (Session_id P session)))) s
  = ({| world :=
          set_files
            (<[conn := sql_update_olmsessions pickle u (Session_id P session)
                         (db_of (world s) conn)]>)
            (world s);
        self := self s |},
     Ok tt).
Proof. intros Hpickle. run_step. by rewrite Hpickle. Qed.

Lemma elem_of_updated_rows (pickle : Pickle) u sid
    (rows : list (string * string * Pickle)) row' :
  row' ∈ map (λ row, if decide (row.1.1 = u ∧ row.1.2 = sid)
                     then (row.1.1, row.1.2, pickle) else row) rows →
  ∃ row, row ∈ rows ∧ row'.1 = row.1
    ∧ ((row.1 = (u, sid) ∧ row'.2 = pickle)
       ∨ (row.1 ≠ (u, sid) ∧ row'.2 = row.2)).
Proof.
  intros Hin. apply list_elem_of_In, in_map_iff in Hin as ([[a b] c] & <- & Hin).
  apply list_elem_of_In in Hin. exists (a, b, c). split; [done|]. simpl.
  destruct (decide (a = u ∧ b = sid)) as [[-> ->]|Hne]; simpl.
  - split; [done|]. by left.
  - split; [done|]. right. split; [|done]. intros [= -> ->]. by apply Hne.
Qed.

(** X25: a save that goes through leaves, in every row of a session whose
    identifier is the only one of its kind in its sender's list, the
    pickle of the session as it is now. *)
Theorem to_session_dir_writes_sessions st sender l session pickle :
  ENCRYPTION (world st) = true →
  (∃ account_pickle,
     Account_pickle P (account (self st)) = Ok account_pickle) →
  (∀ u lu s, sessions (self st) !! u = Some lu → s ∈ lu →
     ∃ p, Session_pickle P s = Ok p) →
  sessions (self st) !! sender = Some l →
  NoDup (map (Session_id P) l) →
  session ∈ l →
  Session_pickle P session = Ok pickle →
  ∃ st',
    to_session_dir P st = (st', Ok None)
    ∧ ∀ row, row ∈ tbl_olmsessions (store st') →
        row.1 = (sender, Session_id P session) → row.2 = pickle.
Proof.
  intros Hon [account_pickle Hacc] Hpickles Hl Hnodup Hin Hpickle.
  set (conn := database (self st)).
  set (Q := λ s : St P,
         ∀ row, row ∈ tbl_olmsessions (db_of (world s) conn) →
           row.1 = (sender, Session_id P session) → row.2 = pickle).
  set (pass := λ (u : string) (y : Session P),
         (p ← lift_result (Session_pickle P y);
          in_world P (execute conn
            (sql_update_olmsessions p u (Session_id P y)))) : M (St P) unit).
  (* a pass for a session of any sender returns and keeps [Q] *)
  assert (Hpass : ∀ u lu s' (s : St P),
            sessions (self st) !! u = Some lu → s' ∈ lu →
            ∃ s2, pass u s' s = (s2, Ok tt)
              ∧ (Q s → Q s2)
              ∧ (u = sender → s' = session → Q s2)).
  { intros u lu s' s Hlu Hs'.
    destruct (Hpickles u lu s' Hlu Hs') as [p Hp].
    eexists. split; [by apply update_session_row_run|].
    assert (Hsame : u = sender → Session_id P s' = Session_id P session →
              p = pickle).
    { intros -> Hid. rewrite Hl in Hlu. injection Hlu as <-.
      assert (s' = session) as ->; [|congruence].
      apply list_elem_of_lookup in Hs' as [i Hi].
      apply list_elem_of_lookup in Hin as [j Hj].
      assert (i = j) as ->; [|congruence].
      eapply NoDup_lookup; [exact Hnodup| |].
      - rewrite list_lookup_fmap, Hi. done.
      - rewrite list_lookup_fmap, Hj. simpl. by rewrite Hid. }
    split.
    - intros Hq row'. unfold db_of. simpl. rewrite lookup_insert_eq. simpl.
      intros (row & Hrow & Hkey & Hcase)%elem_of_updated_rows Hrow'.
      destruct Hcase as [[Hk ->]|[_ ->]].
      + rewrite Hkey, Hk in Hrow'. injection Hrow' as Hu Hid. by apply Hsame.
      + apply Hq; [done|]. by rewrite <- Hkey.
    - intros -> -> row'. unfold db_of. simpl. rewrite lookup_insert_eq. simpl.
      intros (row & Hrow & Hkey & Hcase)%elem_of_updated_rows Hrow'.
      destruct Hcase as [[Hk ->]|[Hne _]].
      + by apply Hsame.
      + by rewrite <- Hkey in Hne. }
  (* the account is written first *)
  unfold to_session_dir. rewrite encrypt_enabled_on by done.
  pose proof (_update_acc_in_db_run st account_pickle Hacc) as Hrun.
  set (st1 := {| world := _; self := self st |}) in Hrun.
  (* then the sessions, sender by sender *)
  set (passes := λ y : string * list (Session P), for_each y.2 (pass y.1)).
  assert (Houter : ∀ y s, y ∈ map_to_list (sessions (self st)) →
            ∃ s2, passes y s = (s2, Ok tt) ∧ (Q s → Q s2)).
  { intros [u lu] s Hu%elem_of_map_to_list.
    apply for_each_ok_keeps. intros y s1 Hy.
    destruct (Hpass u lu y s1 Hu Hy) as (s2 & ? & ? & _). eauto. }
  assert (Hreach : ∀ s, Q (passes (sender, l) s).1).
  { intros s.
    assert (Hone : ∀ s1, Q (pass sender session s1).1).
    { intros s1.
      destruct (Hpass sender l session s1 Hl Hin) as (s2 & Heq & _ & Hq).
      rewrite Heq. by apply Hq. }
    assert (Hin' : ∀ y s1, y ∈ l →
              ∃ s2, pass sender y s1 = (s2, Ok tt) ∧ (Q s1 → Q s2)).
    { intros y s1 Hy.
      destruct (Hpass sender l y s1 Hl Hy) as (s2 & ? & ? & _). eauto. }
    destruct (for_each_reaches Q l (pass sender) session Hin Hin' Hone s)
      as (s2 & Heq & Hs2).
    unfold passes. simpl. by rewrite Heq. }
  assert (Hsender : (sender, l) ∈ map_to_list (sessions (self st)))
    by (by apply elem_of_map_to_list).
  destruct (for_each_reaches Q (map_to_list (sessions (self st))) passes
              (sender, l) Hsender Houter Hreach st1) as (st2 & Hloop & Hq).
  assert (Hsessions : _update_sessions_in_db P st1 = (st2, Ok tt)).
  { unfold _update_sessions_in_db. unfold mbind at 1, M_bind, bind, get.
    rewrite <- Hloop. apply for_each_ext. by intros [u lu] s. }
  exists st2. split.
  - erewrite try_except_ok; [done|].
    rewrite (bind_ok _ _ _ _ _ Hrun).
    by rewrite (bind_ok _ _ _ _ _ Hsessions).
  - pose proof (keeps_save__update_sessions_in_db P st1 st1
                  (save_frame_refl P st1)) as Hframe.
    rewrite Hsessions in Hframe. simpl in Hframe.
    unfold store. rewrite (save_self _ _ _ Hframe). exact Hq.
Qed.

(** [_update_sessions_in_db] does not touch the account table. *)
Lemma _update_sessions_in_db_account_rows st conn :
  tbl_olmaccount (db_of (world (_update_sessions_in_db P st).1) conn)
  = tbl_olmaccount (db_of (world st) conn).
Proof.
  set (I := λ s : St P,
         tbl_olmaccount (db_of (world s) conn)
         = tbl_olmaccount (db_of (world st) conn)).
  assert (Hkeeps : keeps I (_update_sessions_in_db P)); [|by apply Hkeeps].
  apply keeps_get_bind. intros s Hs.
  refine (keeps_for_each _ _ _ _ s Hs). intros [u session_list].
  apply keeps_for_each. intros session.
  apply keeps_bind; [apply keeps_lift_result|]. intros pickle s1 Hs1.
  unfold I, in_world, execute in *. run_step. unfold db_of in *. simpl.
  destruct (decide (database (self s) = conn)) as [->|Hne].
  - by rewrite lookup_insert_eq.
  - by rewrite lookup_insert_ne.
Qed.

Lemma _update_sessions_in_db_file_stays st conn :
  is_Some (files (world st) !! conn) →
  is_Some (files (world (_update_sessions_in_db P st).1) !! conn).
Proof.
  set (I := λ s : St P, is_Some (files (world s) !! conn)).
  assert (Hkeeps : keeps I (_update_sessions_in_db P)); [|by apply Hkeeps].
  apply keeps_get_bind. intros s Hs.
  refine (keeps_for_each _ _ _ _ s Hs). intros [u session_list].
  apply keeps_for_each. intros session.
  apply keeps_bind; [apply keeps_lift_result|]. intros pickle s1 Hs1.
  unfold I, in_world, execute in *. run_step.
  apply lookup_insert_is_Some'. by right.
Qed.

(** What a save that goes through has done to the account rows. *)
Lemma to_session_dir_ok_inv st st' :
  ENCRYPTION (world st) = true →
  to_session_dir P st = (st', Ok None) →
  ∃ pickle,
    Account_pickle P (account (self st)) = Ok pickle
    ∧ self st' = self st
    ∧ ENCRYPTION (world st') = true
    ∧ is_Some (files (world st') !! database (self st))
    ∧ tbl_olmaccount (store st')
      = tbl_olmaccount
          (sql_update_olmaccount pickle (user (self st)) (store st)).
Proof.
  intros Hon Hsave.
  pose proof (keeps_to_session_dir P st st (save_frame_refl P st)) as Hframe.
  rewrite Hsave in Hframe. simpl in Hframe.
  unfold to_session_dir in Hsave. rewrite encrypt_enabled_on in Hsave by done.
  unfold try_except in Hsave.
  destruct (Account_pickle P (account (self st))) as [pickle|e] eqn:Hacc.
  2: { unfold _update_acc_in_db in Hsave. revert Hsave. run_step.
       rewrite Hacc. simpl.
       by destruct (exn_eqb_kind e OlmAccountError || false). }
  rewrite (bind_ok _ _ _ _ _ (_update_acc_in_db_run st pickle Hacc)) in Hsave.
  set (st1 := {| world := _; self := self st |}) in Hsave.
  pose proof (_update_sessions_in_db_account_rows st1 (database (self st)))
    as Haccount.
  assert (Hfile : is_Some (files (world st1) !! database (self st))).
  { simpl. rewrite lookup_insert_eq. by eexists. }
  apply _update_sessions_in_db_file_stays in Hfile.
  revert Hsave. unfold mbind, M_bind, bind.
  destruct (_update_sessions_in_db P st1) as [st2 [[]|e]]; simpl in *.
  2: { by destruct (exn_eqb_kind e OlmAccountError || false). }
  intros [= ->]. exists pickle. split_and!; try done.
  - by destruct Hframe.
  - destruct Hframe. congruence.
  - unfold store at 1. destruct Hframe as [-> _ _ _ _ _ _].
    rewrite Haccount. unfold db_of. simpl. by rewrite lookup_insert_eq.
Qed.

(** X26: after a save that goes through, every account row of the user
    holds the pickle of the account as it is now. *)
Theorem to_session_dir_writes_account st st' :
  ENCRYPTION (world st) = true →
  to_session_dir P st = (st', Ok None) →
  ∃ pickle,
    Account_pickle P (account (self st)) = Ok pickle
    ∧ ∀ row, row ∈ tbl_olmaccount (store st') →
        row.1 = user (self st) → row.2 = pickle.
Proof.
  intros Hon Hsave.
  destruct (to_session_dir_ok_inv st st' Hon Hsave)
    as (pickle & Hacc & _ & _ & _ & Hrows).
  exists pickle. split; [done|]. intros row. rewrite Hrows. simpl.
  intros ([u p] & <- & _)%list_elem_of_In%in_map_iff. simpl.
  by destruct (decide (u = user (self st))).
Qed.

(** X27: a manager saved to its own store and loaded from it comes back
    with the account it had, when the provider reads back the pickle it
    wrote. *)
Theorem save_then_load_restores_account st st' w o :
  ENCRYPTION (world st) = true →
  database (self st)
  = db_path (user (self st)) (device_id (self st)) (session_path (self st)) →
  (∀ pickle, Account_pickle P (account (self st)) = Ok pickle →
     from_cell (Account_from_pickle P) pickle = Ok (account (self st))) →
  to_session_dir P st = (st', Ok None) →
  from_session_dir P (user (self st)) (device_id (self st))
    (session_path (self st)) (world st')
  = (w, Ok (Some o)) →
  account o = account (self st) ∧ w = world st'.
Proof.
  intros Hon Hpath Hlaw Hsave Hload.
  destruct (to_session_dir_ok_inv st st' Hon Hsave)
    as (pickle & Hacc & Hself & Hon' & [db Hdb] & Hrows).
  rewrite Hpath in Hdb.
  destruct (filter (λ row, row.1 = user (self st)) (tbl_olmaccount db))
    as [|row rest] eqn:Hfilter.
  { by rewrite (from_session_dir_missing_row P _ _ _ _ db Hon' Hdb Hfilter)
      in Hload. }
  destruct (from_session_dir_ok_inv P _ _ _ _ _ _ _ _ _ Hdb Hfilter Hload)
    as (-> & Hrow & _).
  split; [|done].
  assert (Hin : row ∈ filter (λ row, row.1 = user (self st)) (tbl_olmaccount db))
    by (rewrite Hfilter; apply list_elem_of_here).
  apply list_elem_of_filter in Hin as [Huser Hin].
  assert (row.2 = pickle) as Hpickle.
  { assert (tbl_olmaccount db = tbl_olmaccount (store st')) as Hdb'.
    { unfold store, db_of. by rewrite Hself, Hpath, Hdb. }
    rewrite Hdb', Hrows in Hin. simpl in Hin.
    apply list_elem_of_In, in_map_iff in Hin as ([u p] & <- & _).
    simpl in *. by destruct (decide (u = user (self st))). }
  rewrite Hpickle, (Hlaw pickle Hacc) in Hrow. by injection Hrow.
Qed.

(** X28: when the account cannot be pickled, nothing is written; the
    provider's account error comes out as [EncryptionError] around it. *)
Theorem to_session_dir_account_error st :
  ENCRYPTION (world st) = true →
  Account_pickle P (account (self st)) = Raise OlmAccountError →
  to_session_dir P st = (st, Raise (EncryptionError OlmAccountError)).
Proof.
  intros Hon Hacc. unfold to_session_dir.
  rewrite encrypt_enabled_on by done.
  rewrite (try_except_caught _ _ _ st st OlmAccountError); [done| |done].
  apply bind_raise. unfold _update_acc_in_db. run_step. by rewrite Hacc.
Qed.

(** X30: with a provider whose account pickle is a [bytes], a manager that
    has been saved cannot be loaded from its store: the load raises
    [TypeError].  The account cell of the user comes back as the [bytes]
    the save wrote, [bytes(pickle, "utf-8")] raises [TypeError] before
    the provider is asked, and the [except] clause of [from_session_dir]
    does not name that error; a store without an account row for the
    user has no row to read, which raises [TypeError] as well. *)
Theorem save_then_load_bytes_pickle st st' data :
  ENCRYPTION (world st) = true →
  database (self st)
  = db_path (user (self st)) (device_id (self st)) (session_path (self st)) →
  Account_pickle P (account (self st)) = Ok (Bytes data) →
  to_session_dir P st = (st', Ok None) →
  from_session_dir P (user (self st)) (device_id (self st))
    (session_path (self st)) (world st')
  = (world st', Raise TypeError).
Proof.
  intros Hon Hpath Hbytes Hsave.
  destruct (to_session_dir_ok_inv st st' Hon Hsave)
    as (pickle & Hacc & Hself & Hon' & [db Hdb] & Hrows).
  rewrite Hbytes in Hacc. injection Hacc as <-.
  rewrite Hpath in Hdb.
  destruct (filter (λ row, row.1 = user (self st)) (tbl_olmaccount db))
    as [|row rest] eqn:Hfilter.
  { by apply (from_session_dir_missing_row P _ _ _ _ db). }
  rewrite (from_session_dir_run P _ _ _ _ db row rest) by done.
  assert (Hin : row ∈ filter (λ row, row.1 = user (self st)) (tbl_olmaccount db))
    by (rewrite Hfilter; apply list_elem_of_here).
  apply list_elem_of_filter in Hin as [Huser Hin].
  assert (row.2 = Bytes data) as ->; [|done].
  assert (tbl_olmaccount db = tbl_olmaccount (store st')) as Hdb'.
  { unfold store, db_of. by rewrite Hself, Hpath, Hdb. }
  rewrite Hdb', Hrows in Hin. simpl in Hin.
  apply list_elem_of_In, in_map_iff in Hin as ([u p] & <- & _).
  simpl in *. by destruct (decide (u = user (self st))).
Qed.
End SaveTheorems.

(** * More on construction, decryption and provisioning *)

Section More.
Context (P : Provider).
Implicit Types (st : St P) (w : World).

(** X7: a manager built on a path where there is no store yet, in a
    directory that is there, creates the store with its one account row,
    which holds the pickle as the provider returned it.  A load from
    that path returns the same manager when the pickle is a [str] that
    the provider reads back; when the pickle is a [bytes], the load
    raises [TypeError]. *)
Theorem Olm_init_then_load w u dev dir pickle :
  ENCRYPTION w = true →
  files w !! db_path u dev dir = None →
  has_directory w (db_path u dev dir) = true →
  Account_pickle P (Account_new P) = Ok pickle →
  ∃ w1 o,
    Olm_init P u dev dir None None None None w = (w1, Ok (Some o))
    ∧ files w1 !! db_path u dev dir
      = Some {| tbl_olmaccount := [(u, pickle)];
                tbl_olmsessions := [];
                tbl_inbound_group_sessions := [] |}
    ∧ account o = Account_new P
    ∧ (∀ text, pickle = Str text →
         Account_from_pickle P text = Ok (Account_new P) →
         from_session_dir P u dev dir w1 = (w1, Ok (Some o)))
    ∧ (∀ data, pickle = Bytes data →
         from_session_dir P u dev dir w1 = (w1, Raise TypeError)).
Proof.
  intros Hon Hfile Hdir Hpickle.
  set (db := {| tbl_olmaccount := [(u, pickle)];
                tbl_olmsessions := [];
                tbl_inbound_group_sessions := [] |}).
  exists (set_files (<[db_path u dev dir := db]>) w),
    (Build_Olm P u dev dir (db_path u dev dir) ∅ (Account_new P) ∅ ∅).
  assert (Hrun : ∀ r,
    from_cell (Account_from_pickle P) pickle = r →
    from_session_dir P u dev dir (set_files (<[db_path u dev dir := db]>) w)
    = (set_files (<[db_path u dev dir := db]>) w,
       match r with
       | Ok a => Ok (Some (Build_Olm P u dev dir (db_path u dev dir) ∅ a ∅ ∅))
       | Raise e => Raise (if caught_by [OlmAccountError; OlmSessionError] e
                           then EncryptionError e else e)
       end)).
  { intros r <-.
    rewrite (from_session_dir_run P _ u dev dir db (u, pickle) []).
    - simpl. by destruct (from_cell (Account_from_pickle P) pickle).
    - done.
    - simpl. by rewrite lookup_insert_eq.
    - simpl. by rewrite filter_cons_True. }
  split_and!.
  - unfold Olm_init. rewrite encrypt_enabled_on by done.
    unfold sqlite3_connect, _check_db_tables, execute. run_step.
    rewrite Hfile, Hdir. simpl. rewrite Hfile. simpl. rewrite Hpickle. simpl.
    unfold set_files, db_of. simpl.
    by rewrite insert_insert_eq, lookup_insert_eq.
  - simpl. by rewrite lookup_insert_eq.
  - done.
  - intros text -> Hlaw. by rewrite (Hrun (Ok (Account_new P))).
  - intros data ->. by rewrite (Hrun (Raise TypeError)).
Qed.

(** The loop stops at a session that raises something else than the
    session error. *)
Lemma decrypt_loop_raises st sender message pre l1 l1' session session' l2 e :
  sessions (self st) !! sender = Some (pre ++ l1 ++ session :: l2) →
  Forall2 (declines message) l1 l1' →
  (is_prekey message = true → Session_matches P session message = Ok true) →
  Session_decrypt P session message = (session', Raise e) →
  caught_by [OlmSessionError] e = false →
  decrypt_loop P sender message (length pre) (l1 ++ session :: l2) st
  = (with_sessions st
       (<[sender := pre ++ l1' ++ session' :: l2]> (sessions (self st))),
     Raise e).
Proof.
  intros Hl Hall Hm Hdec He. revert st pre Hl.
  induction Hall as [|s s' l1 l1' Hdecl _ IH]; intros st pre Hl.
  - cbn [app decrypt_loop]. eapply bind_raise.
    unfold decrypt_attempt. eapply try_except_passed; [|done].
    run_step. destruct (is_prekey message); [rewrite Hm by done|]; simpl;
      by rewrite (Session_decrypt_in_place_run P st _ _ _ _ _ _ _ Hl Hdec).
  - cbn [app decrypt_loop].
    erewrite bind_ok by (by apply decrypt_attempt_declined).
    replace (S (length pre)) with (length (pre ++ [s']))
      by (rewrite length_app; simpl; lia).
    rewrite IH.
    + simpl. rewrite insert_insert_eq, <- app_assoc. done.
    + simpl. rewrite lookup_insert_eq, <- app_assoc. done.
Qed.

(** X10: an error other than the session error, raised by a session asked
    to decrypt, ends [decrypt] with that error: the sessions after it are
    not tried and no session is started. *)
Theorem decrypt_other_error_propagates st sender sender_key message l1 l1'
    session session' l2 e :
  ENCRYPTION (world st) = true →
  sessions (self st) !! sender = Some (l1 ++ session :: l2) →
  Forall2 (declines message) l1 l1' →
  (is_prekey message = true → Session_matches P session message = Ok true) →
  Session_decrypt P session message = (session', Raise e) →
  caught_by [OlmSessionError] e = false →
  decrypt P sender sender_key message st
  = (with_sessions st
       (<[sender := l1' ++ session' :: l2]> (sessions (self st))),
     Raise e).
Proof.
  intros Hon Hl Hall Hm Hdec He. unfold decrypt.
  rewrite encrypt_enabled_on by done.
  erewrite bind_ok by apply sessions_getitem_run.
  rewrite Hl. simpl. rewrite insert_id by done. rewrite with_sessions_same.
  by erewrite bind_raise
    by (by apply (decrypt_loop_raises st sender message [])).
Qed.


(** X12: [_create_session] is not all-or-nothing.  When removing the
    one-time key raises the account error, [decrypt] raises it too, with
    the new session already in the registry and its row in the store, and
    the account row not rewritten. *)
Theorem decrypt_remove_keys_error st sender sender_key message l l' session
    pickle account' :
  ENCRYPTION (world st) = true →
  default [] (sessions (self st) !! sender) = l →
  Forall2 (declines message) l l' →
  InboundSession P (account (self st)) message sender_key = Ok session →
  Session_pickle P session = Ok pickle →
  Account_remove_one_time_keys P (account (self st)) session
  = (account', Raise OlmAccountError) →
  decrypt P sender sender_key message st
  = ({| world :=
          set_files
            (<[database (self st) :=
                 sql_insert_olmsessions sender (Session_id P session) pickle
                   (store st)]>)
            (set_printed (λ out, out ++ [creating sender; created sender])
               (world st));
        self := set_account P account'
                  (set_sessions P
                     (<[sender := l' ++ [session]]> (sessions (self st)))
                     (self st)) |},
     Raise OlmAccountError).
Proof.
  intros Hon Hl Hall Hin Hpickle Hremove. unfold decrypt.
  rewrite encrypt_enabled_on by done.
  erewrite bind_ok by apply sessions_getitem_run. rewrite Hl.
  erewrite bind_ok.
  2: { apply (decrypt_loop_declined P _ sender message [] l l'); [|done].
       simpl. by rewrite lookup_insert_eq. }
  simpl. rewrite insert_insert_eq.
  eapply bind_raise. eapply try_except_passed; [|done].
  eapply bind_raise.
  unfold _create_session, in_world, W_prnt. run_step. rewrite Hin. simpl.
  unfold sessions_append.
  erewrite bind_ok by apply sessions_getitem_run.
  unfold modify_self, _store_session. run_step.
  rewrite Hpickle. simpl. unfold in_world, execute. run_step.
  rewrite Hremove. simpl.
  unfold set_files, set_printed, with_sessions, store, db_of. simpl.
  rewrite !insert_insert_eq, lookup_insert_eq, <- app_assoc. done.
Qed.

(** X13: whatever [group_decrypt] returns or raises, the process state, the
    store with it, is as it was, and of the manager at most the one
    session asked to decrypt has changed (apart from the room being
    stored with no sessions if it was not known). *)
Theorem group_decrypt_touches_one_entry st room_id session_id ciphertext :
  ∃ groups',
    (group_decrypt P room_id session_id ciphertext st).1
    = with_groups st groups'
    ∧ ∀ room_id' session_id',
        (room_id', session_id') ≠ (room_id, session_id) →
        default ∅ (groups' !! room_id') !! session_id'
        = default ∅ (inbound_group_sessions (self st) !! room_id')
            !! session_id'.
Proof.
  destruct (ENCRYPTION (world st)) eqn:Hon.
  2: { exists (inbound_group_sessions (self st)). split; [|done].
       rewrite (proj1 (proj2 (gated_methods_off P st Hon))). simpl.
       unfold with_groups. by rewrite set_inbound_group_sessions_id, St_eta. }
  set (groups := inbound_group_sessions (self st)).
  set (d := default ∅ (groups !! room_id)).
  destruct (d !! session_id) as [session|] eqn:Hd.
  - destruct (InboundGroupSession_decrypt P session ciphertext)
      as [session' r] eqn:Hdec.
    eexists. split.
    + by rewrite (group_decrypt_known P st _ _ _ session session' r Hon Hd Hdec).
    + intros room_id' session_id' Hne.
      destruct (decide (room_id' = room_id)) as [->|Hroom].
      * rewrite lookup_insert_eq. simpl.
        rewrite lookup_insert_ne; [done|]. congruence.
      * by rewrite lookup_insert_ne.
  - eexists. split.
    + by rewrite (group_decrypt_unknown P st _ _ _ Hon Hd).
    + intros room_id' session_id' Hne.
      destruct (decide (room_id' = room_id)) as [->|Hroom].
      * by rewrite lookup_insert_eq.
      * by rewrite lookup_insert_ne.
Qed.

(** X14: when the provider does not accept the session key,
    [create_group_session] raises the provider's error having printed its
    notice and nothing more: no session is registered and no file is
    written. *)
Theorem create_group_session_rejected_key st room_id session_id session_key e :
  InboundGroupSession_new P session_key = Raise e →
  ∃ st',
    create_group_session P room_id session_id session_key st = (st', Raise e)
    ∧ self st' = self st
    ∧ files (world st') = files (world st)
    ∧ printed (world st')
      = printed (world st)
        ++ [("", "matrix: Creating group session for " +:+ room_id)].
Proof.
  intros Hnew. eexists. split; [by apply create_group_session_raises|].
  by split_and!.
Qed.

(** X15: a group session provisioned by [create_group_session] is there
    after a load from the manager's store, filed under the identifier the
    provider gives it, whatever [session_id] it was provisioned under,
    when the store could be loaded before and the session's pickle is a
    [str] that the provider reads back. *)
Theorem create_group_session_then_load st room_id session_id session_key
    session text u dev dir w0 o0 :
  ENCRYPTION (world st) = true →
  database (self st) = db_path u dev dir →
  InboundGroupSession_new P session_key = Ok session →
  InboundGroupSession_pickle P session = Ok (Str text) →
  InboundGroupSession_from_pickle P text = Ok session →
  from_session_dir P u dev dir (world st) = (w0, Ok (Some o0)) →
  ∃ st1 w1 o1,
    create_group_session P room_id session_id session_key st = (st1, Ok tt)
    ∧ from_session_dir P u dev dir (world st1) = (w1, Ok (Some o1))
    ∧ default ∅ (inbound_group_sessions o1 !! room_id)
        !! InboundGroupSession_id P session
      = Some session
    ∧ sessions o1 = sessions o0
    ∧ account o1 = account o0.
Proof.
  intros Hon Hpath Hnew Hpickle Hlaw Hload.
  destruct (from_session_dir_ok_file P _ _ _ _ _ _ Hload) as [db Hdb].
  destruct (filter (λ row, row.1 = u) (tbl_olmaccount db))
    as [|row rest] eqn:Hfilter.
  { by rewrite (from_session_dir_missing_row P _ _ _ _ db Hon Hdb Hfilter)
      in Hload. }
  destruct (from_session_dir_ok_inv P _ _ _ _ _ _ _ _ _ Hdb Hfilter Hload)
    as (-> & Hacc & Hsessions & Hgroups & _).
  eexists _, _, _. split; [by apply create_group_session_run|].
  assert (Hstore : store st = db) by (unfold store, db_of; by rewrite Hpath, Hdb).
  rewrite Hstore, Hpath.
  rewrite (from_session_dir_run P _ u dev dir
             (sql_insert_inbound_group_sessions room_id
                (InboundGroupSession_id P session) (Str text) db) row rest);
    [|done|simpl; by rewrite lookup_insert_eq|done].
  rewrite Hacc. cbn [tbl_olmsessions tbl_inbound_group_sessions
                     sql_insert_inbound_group_sessions].
  rewrite Hsessions.
  unfold groups_of_rows in *. rewrite map_app, parse_fold_app, Hgroups.
  cbn [map parse_fold]. unfold from_cell at 1. simpl. rewrite Hlaw.
  split; [reflexivity|]. simpl.
  rewrite lookup_insert_eq. simpl. by rewrite lookup_insert_eq.
Qed.

(** X29: [mark_keys_as_published] changes the account and writes nothing;
    the next save that goes through puts the pickle of the account with
    its keys marked into every account row of the user. *)
Theorem published_keys_reach_store_on_save st account' st2 :
  ENCRYPTION (world st) = true →
  Account_mark_keys_as_published P (account (self st)) = (account', Ok tt) →
  to_session_dir P (mark_keys_as_published P st).1 = (st2, Ok None) →
  mark_keys_as_published P st
  = ({| world := world st; self := set_account P account' (self st) |},
     Ok None)
  ∧ ∃ pickle,
      Account_pickle P account' = Ok pickle
      ∧ ∀ row, row ∈ tbl_olmaccount (store st2) →
          row.1 = user (self st) → row.2 = pickle.
Proof.
  intros Hon Hmark Hsave.
  assert (Hrun : mark_keys_as_published P st
                 = ({| world := world st;
                       self := set_account P account' (self st) |}, Ok None)).
  { unfold mark_keys_as_published. rewrite encrypt_enabled_on by done.
    unfold modify_self. run_step. by rewrite Hmark. }
  split; [done|]. rewrite Hrun in Hsave. simpl in Hsave.
  destruct (to_session_dir_ok_inv P
              (Build_St P (world st) (set_account P account' (self st)))
              st2 Hon Hsave)
    as (pickle & Hacc & _ & _ & _ & Hrows).
  exists pickle. split; [done|]. intros row. rewrite Hrows. simpl.
  intros ([u p] & <- & _)%list_elem_of_In%in_map_iff. simpl.
  by destruct (decide (u = user (self st))).
Qed.
End More.

(** * The further statements at work *)

Section MoreRuns.
Import Toy Cases.

Lemma partition_key_strip_witness :
  strip_spaces (partition_key "abcdef") = "abcdef".
Proof.
  apply partition_key_strip. vm_compute.
  intros Hin. repeat (apply elem_of_cons in Hin as [Hin|Hin]; [done|]).
  by apply elem_of_nil in Hin.
Defined.

Lemma olm_cmd_parse_args_blank_witness :
  olm_cmd_parse_args "   " = ("info", []).
Proof. apply olm_cmd_parse_args_blank. by repeat constructor. Defined.

Lemma olm_cmd_parse_args_join_witness :
  olm_cmd_parse_args (" " +:+ String.concat " " ["info"; "all"] +:+ "  ")
  = ("info", ["all"]).
Proof.
  apply olm_cmd_parse_args_join.
  - split; [done|]. by repeat constructor.
  - repeat constructor; done.
  - by repeat constructor.
  - by repeat constructor.
Defined.

Lemma from_session_dir_no_store_witness :
  (∃ w1,
     from_session_dir provider "@me" "DEV" "/tmp" nothing_saved
     = (w1, Raise TypeError)
     ∧ files w1 = {[ "/tmp/@me_DEV.db" := empty_db ]}
     ∧ from_session_dir provider "@me" "DEV" "/tmp" w1
       = (w1, Raise TypeError))
  ∧ from_session_dir provider "@me" "DEV" "/tmp" no_directory
    = (no_directory, Raise OperationalError).
Proof.
  split.
  - exact (from_session_dir_no_store provider nothing_saved "@me" "DEV" "/tmp"
             eq_refl eq_refl).
  - exact (from_session_dir_no_store provider no_directory "@me" "DEV" "/tmp"
             eq_refl eq_refl).
Defined.


Lemma from_session_dir_account_rejected_witness :
  from_session_dir provider "@me" "DEV" "/tmp" (on_disk db_bad_account)
  = (on_disk db_bad_account, Raise (EncryptionError OlmAccountError)).
Proof.
  apply (from_session_dir_account_rejected provider _ _ _ _ db_bad_account
           ("@me", Str "") []); reflexivity.
Defined.

Lemma from_session_dir_no_silent_drop_witness :
  from_cell (unpickle OlmAccountError) (Str "account")
  = Ok (account alice_loaded)
  ∧ Forall (λ row : string * string * Pickle,
              ∃ session,
                from_cell (unpickle OlmSessionError) row.2 = Ok session)
      (tbl_olmsessions db_alice)
  ∧ Forall (λ row : string * string * Pickle,
              ∃ session,
                from_cell (unpickle OlmGroupSessionError) row.2 = Ok session)
      (tbl_inbound_group_sessions db_alice).
Proof.
  apply (from_session_dir_no_silent_drop provider (on_disk db_alice)
           (on_disk db_alice) "@me" "DEV" "/tmp" db_alice
           ("@me", Str "account") [] alice_loaded).
  - reflexivity.
  - reflexivity.
  - vm_compute. reflexivity.
Defined.


Lemma from_session_dir_sessions_in_row_order_witness :
  Forall2 (λ (row : string * string * Pickle) session,
             from_cell (unpickle OlmSessionError) row.2 = Ok session)
    (filter (λ row, row.1.1 = "@alice") (tbl_olmsessions db_alice))
    (default [] (sessions alice_loaded !! "@alice")).
Proof.
  apply (from_session_dir_sessions_in_row_order provider (on_disk db_alice)
           (on_disk db_alice) "@me" "DEV" "/tmp" db_alice
           ("@me", Str "account") [] alice_loaded "@alice").
  - reflexivity.
  - reflexivity.
  - vm_compute. reflexivity.
Defined.

Lemma from_session_dir_groups_by_own_id_witness :
  ident "G+" = "G"
  ∧ ∃ row : string * string * Pickle,
      row ∈ tbl_inbound_group_sessions db_groups ∧ row.1.1 = "!room"
      ∧ from_cell (unpickle OlmGroupSessionError) row.2 = Ok "G+".
Proof.
  apply (from_session_dir_groups_by_own_id provider (on_disk db_groups)
           (on_disk db_groups) "@me" "DEV" "/tmp" db_groups
           ("@me", Str "account") [] groups_loaded "!room" "G" "G+").
  - reflexivity.
  - reflexivity.
  - vm_compute. reflexivity.
  - vm_compute. reflexivity.
Defined.

Lemma from_session_dir_last_group_row_wins_witness :
  default ∅ (inbound_group_sessions groups_loaded !! "!room") !! ident "G+"
  = Some "G+".
Proof.
  apply (from_session_dir_last_group_row_wins provider (on_disk db_groups)
           (on_disk db_groups) "@me" "DEV" "/tmp" db_groups
           ("@me", Str "account") [] groups_loaded [("!room", "X", Str "G")]
           ("!room", "G", Str "G+") [] "G+").
  - reflexivity.
  - reflexivity.
  - vm_compute. reflexivity.
  - reflexivity.
  - reflexivity.
  - constructor.
Defined.

Lemma to_session_dir_writes_sessions_witness :
  ∃ st',
    to_session_dir provider alice_advanced = (st', Ok None)
    ∧ ∀ row : string * string * Pickle,
        row ∈ tbl_olmsessions (store st') →
        row.1 = ("@alice", ident "B+") → row.2 = Str "B+".
Proof.
  apply (to_session_dir_writes_sessions provider alice_advanced "@alice"
           ["A"; "B+"] "B+" (Str "B+")).
  - reflexivity.
  - by eexists.
  - intros u lu s _ _. by eexists.
  - reflexivity.
  - change (NoDup ["A"; "B"]). apply NoDup_cons. split.
    + intros Hin. apply list_elem_of_singleton in Hin. discriminate.
    + apply NoDup_singleton.
  - apply list_elem_of_further, list_elem_of_here.
  - reflexivity.
Defined.

Lemma to_session_dir_writes_account_witness :
  ∃ pickle,
    Ok (Str "account") = Ok pickle
    ∧ ∀ row : string * Pickle,
        row ∈ tbl_olmaccount (store (to_session_dir provider alice).1) →
        row.1 = "@me" → row.2 = pickle.
Proof.
  apply (to_session_dir_writes_account provider alice
           (to_session_dir provider alice).1); reflexivity.
Defined.

Lemma save_then_load_restores_account_witness :
  account alice_loaded = account (self alice)
  ∧ on_disk db_alice = world (to_session_dir provider alice).1.
Proof.
  apply (save_then_load_restores_account provider alice
           (to_session_dir provider alice).1 (on_disk db_alice) alice_loaded).
  - reflexivity.
  - reflexivity.
  - by intros pickle [= <-].
  - reflexivity.
  - vm_compute. reflexivity.
Defined.

Lemma save_then_load_bytes_pickle_witness :
  ∃ st',
    to_session_dir binary binary_state = (st', Ok None)
    ∧ tbl_olmaccount (store st') = [("@me", Bytes "account!")]
    ∧ from_session_dir binary "@me" "DEV" "/tmp" (world st')
      = (world st', Raise TypeError).
Proof.
  eexists. split; [reflexivity|]. split; [vm_compute; reflexivity|].
  apply (save_then_load_bytes_pickle binary binary_state _ "account!");
    reflexivity.
Defined.

Lemma to_session_dir_account_error_witness :
  to_session_dir faulty (faulty_state "")
  = (faulty_state "", Raise (EncryptionError OlmAccountError)).
Proof. apply to_session_dir_account_error; reflexivity. Defined.

Lemma Olm_init_then_load_witness :
  (∃ w1 o,
     Olm_init provider "@me" "DEV" "/tmp" None None None None nothing_saved
     = (w1, Ok (Some o))
     ∧ files w1 !! "/tmp/@me_DEV.db" = Some db_account
     ∧ from_session_dir provider "@me" "DEV" "/tmp" w1 = (w1, Ok (Some o)))
  ∧ ∃ w1 o,
      Olm_init binary "@me" "DEV" "/tmp" None None None None nothing_saved
      = (w1, Ok (Some o))
      ∧ files w1 !! "/tmp/@me_DEV.db" = Some db_binary
      ∧ from_session_dir binary "@me" "DEV" "/tmp" w1 = (w1, Raise TypeError).
Proof.
  split.
  - destruct (Olm_init_then_load provider nothing_saved "@me" "DEV" "/tmp"
                (Str "account") eq_refl eq_refl eq_refl eq_refl)
      as (w1 & o & Hinit & Hfile & _ & Hstr & _).
    exists w1, o. split_and!; [exact Hinit|exact Hfile|].
    exact (Hstr "account" eq_refl eq_refl).
  - destruct (Olm_init_then_load binary nothing_saved "@me" "DEV" "/tmp"
                (Bytes "account") eq_refl eq_refl eq_refl eq_refl)
      as (w1 & o & Hinit & Hfile & _ & _ & Hbytes).
    exists w1, o. split_and!; [exact Hinit|exact Hfile|].
    exact (Hbytes "account" eq_refl).
Defined.

Lemma decrypt_other_error_propagates_witness :
  decrypt faulty "@alice" "KEY" (OlmMessage "A|hello") (faulty_state "account")
  = (with_sessions (faulty_state "account")
       (<["@alice" := ["A"]]> (sessions (self (faulty_state "account")))),
     Raise TypeError).
Proof.
  apply (decrypt_other_error_propagates faulty (faulty_state "account")
           "@alice" "KEY" (OlmMessage "A|hello") [] [] "A" "A" [] TypeError).
  - reflexivity.
  - reflexivity.
  - constructor.
  - discriminate.
  - reflexivity.
  - reflexivity.
Defined.


Lemma decrypt_remove_keys_error_witness :
  ∃ st',
    decrypt faulty "@bob" "KEY" (OlmPreKeyMessage "C|hello")
      (faulty_state "account")
    = (st', Raise OlmAccountError)
    ∧ sessions (self st') !! "@bob" = Some ["C"]
    ∧ tbl_olmsessions (store st')
      = [("@alice", "A", Str "A"); ("@alice", "B", Str "B");
         ("@bob", "C", Str "C")].
Proof.
  eexists. split.
  - apply (decrypt_remove_keys_error faulty (faulty_state "account") "@bob"
             "KEY" (OlmPreKeyMessage "C|hello") [] [] "C" (Str "C")
             "account").
    + reflexivity.
    + reflexivity.
    + constructor.
    + reflexivity.
    + reflexivity.
    + reflexivity.
  - split; vm_compute; reflexivity.
Defined.

Lemma create_group_session_then_load_witness :
  ∃ st1 w1 o1,
    create_group_session provider "!room" "X" "G" fresh = (st1, Ok tt)
    ∧ from_session_dir provider "@me" "DEV" "/tmp" (world st1)
      = (w1, Ok (Some o1))
    ∧ default ∅ (inbound_group_sessions o1 !! "!room") !! ident "G" = Some "G"
    ∧ sessions o1 = sessions account_loaded
    ∧ account o1 = account account_loaded.
Proof.
  apply (create_group_session_then_load provider fresh "!room" "X" "G" "G" "G"
           "@me" "DEV" "/tmp" (world fresh) account_loaded).
  - reflexivity.
  - reflexivity.
  - reflexivity.
  - reflexivity.
  - reflexivity.
  - vm_compute. reflexivity.
Defined.

Lemma published_keys_reach_store_on_save_witness :
  mark_keys_as_published provider alice
  = ({| world := world alice;
        self := set_account provider "account!" (self alice) |}, Ok None)
  ∧ ∃ pickle,
      Ok (Str "account!") = Ok pickle
      ∧ ∀ row : string * Pickle,
          row ∈ tbl_olmaccount
                  (store (to_session_dir provider
                            (mark_keys_as_published provider alice).1).1) →
          row.1 = "@me" → row.2 = pickle.
Proof.
  apply (published_keys_reach_store_on_save provider alice "account!"
           (to_session_dir provider
              (mark_keys_as_published provider alice).1).1); reflexivity.
Defined.

Lemma create_group_session_rejected_key_witness :
  ∃ st',
    create_group_session provider "!room" "G" "" fresh
    = (st', Raise OlmGroupSessionError)
    ∧ self st' = self fresh
    ∧ files (world st') = files (world fresh)
    ∧ printed (world st')
      = printed (world fresh)
        ++ [("", "matrix: Creating group session for " +:+ "!room")].
Proof. apply create_group_session_rejected_key. reflexivity. Defined.
End MoreRuns.
